(** * The Vault operator client of bank-vaults

    A shallow embedding of [internal/vault/operator_client.go] and the
    properties of its lifecycle controller ([New], [Init], [Unseal],
    [RaftInitialized], [RaftJoin], the status queries) and of its
    configuration reconciler ([Configure] and its sub-steps).

    The key store ([KVService]) and the admin client of the secrets server
    are Go interfaces and remote services: they are type classes here, and
    every function of the client is written against them, threading the
    state of both and a trace of the calls it made. Logging ([logrus]) and
    the deferred [runtime.GC()] leave no mark on that state and are left
    out. *)

From Stdlib Require Import Ascii.
From stdpp Require Import gmap strings list fin_maps pretty.

Set Warnings "-register-all".
Open Scope Z_scope.

(** ** Errors

    Go [error] values. [errors.New] and [errors.Errorf] build a plain
    message, [errors.Wrap] and [errors.Wrapf] put a message in front of a
    cause, and a key-store backend may return an error that implements the
    [notFoundError] interface; [NotFound()] answers [notFound]. A nil
    [error] is [None : option error]. *)

Inductive error :=
  | ErrNew (msg : string)
  | ErrWrap (cause : error) (msg : string)
  | ErrStore (notFound : bool) (msg : string).

(** [err.Error()]. *)
Fixpoint Error (err : error) : string :=
  match err with
  | ErrNew msg => msg
  | ErrWrap cause msg => msg +:+ ": " +:+ Error cause
  | ErrStore _ msg => msg
  end.

(** [errors.As(err, &notFoundErr) && notFoundErr.NotFound()]: the first
    error of the chain that implements the interface decides. *)
Fixpoint isNotFoundError (err : error) : bool :=
  match err with
  | ErrNew _ => false
  | ErrWrap cause _ => isNotFoundError cause
  | ErrStore notFound _ => notFound
  end.

(** [isNotFoundError] on a possibly nil error: [errors.As(nil, _)] is false. *)
Definition isNotFoundError_opt (err : option error) : bool :=
  match err with
  | None => false
  | Some e => isNotFoundError e
  end.

Inductive result (A : Type) :=
  | Ok (a : A)
  | Err (e : error).
Arguments Ok {A} a.
Arguments Err {A} e.

(** [[]byte] and [string] are both byte sequences; [string(k)] and
    [[]byte(k)] are the identity. *)
Definition bytes := string.

(** ** Machine integers: Go's [int] on a 64-bit platform *)

Definition int_min : Z := - 2 ^ 63.
Definition int_max : Z := 2 ^ 63 - 1.
Definition int_wrap (z : Z) : Z := (z - int_min) `mod` 2 ^ 64 + int_min.
(** [i++] *)
Definition int_incr (i : Z) : Z := int_wrap (i + 1).

(** ** Configuration of the initialization *)

Record Config := {
  SecretShares : Z;
  SecretThreshold : Z;
  InitRootToken : string;
  StoreRootToken : bool;
  PreFlightChecks : bool;
}.

(** ** Key names *)

Definition unsealKeyForID (i : Z) : string := "vault-unseal-" +:+ pretty i.
Definition recoveryKeyForID (i : Z) : string := "vault-recovery-" +:+ pretty i.
Definition rootTokenKey : string := "vault-root".
Definition testKey : string := "vault-test".

(** ** Dynamic values: Go's [interface{}] as the configuration document and
    the server's JSON answers hold it *)

Inductive value :=
  | VNil
  | VBool (b : bool)
  | VInt (n : Z)
  | VString (s : string)
  | VList (l : list value)
  | VMap (m : gmap string value).

(** [m[key]] on a [map[string]interface{}]: nil when the key is absent. *)
Definition index (m : gmap string value) (key : string) : value :=
  default VNil (m !! key).

(** [value != nil] *)
Definition is_nil (v : value) : bool :=
  match v with VNil => true | _ => false end.

(** ** Strings *)

Module strings.

Fixpoint TrimLeft (s : string) (c : ascii) : string :=
  match s with
  | String a s' => if decide (a = c) then TrimLeft s' c else s
  | EmptyString => EmptyString
  end.

Fixpoint TrimRight (s : string) (c : ascii) : string :=
  match s with
  | String a s' =>
      match TrimRight s' c with
      | EmptyString => if decide (a = c) then EmptyString else String a EmptyString
      | t => String a t
      end
  | EmptyString => EmptyString
  end.

Definition Trim (s : string) (c : ascii) : string := TrimRight (TrimLeft s c) c.

Fixpoint HasPrefix (s p : string) : bool :=
  match p, s with
  | EmptyString, _ => true
  | String b p', String a s' => bool_decide (a = b) && HasPrefix s' p'
  | String _ _, EmptyString => false
  end.

Definition HasSuffix (s p : string) : bool :=
  HasPrefix (String.rev s) (String.rev p).

(** [strings.Fields]: the maximal runs of characters that are not white
    space. *)
Definition is_space (a : ascii) : bool :=
  bool_decide (a = " "%char) || bool_decide (a = "009"%char) || bool_decide (a = "010"%char)
  || bool_decide (a = "011"%char) || bool_decide (a = "012"%char) || bool_decide (a = "013"%char).

Fixpoint fields_from (s : string) (word : string) : list string :=
  match s with
  | EmptyString => if bool_decide (word = "") then [] else [String.rev word]
  | String a s' =>
      if is_space a then
        if bool_decide (word = "") then fields_from s' ""
        else String.rev word :: fields_from s' ""
      else fields_from s' (String a word)
  end.

Definition Fields (s : string) : list string := fields_from s "".

(** [strings.Join] *)
Fixpoint Join (l : list string) (sep : string) : string :=
  match l with
  | [] => ""
  | [s] => s
  | s :: l' => s +:+ sep +:+ Join l' sep
  end.

End strings.

(** *** [github.com/spf13/cast] on these values *)

Module cast.

(** [cast.ToStringE]: strings are themselves, booleans and integers are
    printed, nil is the empty string, lists and maps do not cast. *)
Definition ToStringE (v : value) : result string :=
  match v with
  | VNil => Ok ""
  | VBool b => Ok (if b then "true" else "false")
  | VInt n => Ok (pretty n)
  | VString s => Ok s
  | VList _ | VMap _ => Err (ErrNew "unable to cast value to string")
  end.

(** [cast.ToString]: the value of [ToStringE], its error dropped. *)
Definition ToString (v : value) : string :=
  match ToStringE v with Ok s => s | Err _ => "" end.

(** [cast.ToStringSlice]: a list casts element by element, a string is
    split into its fields, a boolean or an integer is the one string it
    prints as, and what does not cast is the empty slice. *)
Definition ToStringSlice (v : value) : list string :=
  match v with
  | VList l => ToString <$> l
  | VString s => strings.Fields s
  | VBool _ | VInt _ => [ToString v]
  | VNil | VMap _ => []
  end.

(** [cast.ToStringMapE]: a map is itself (a string that holds JSON is not
    looked into). *)
Definition ToStringMapE (v : value) : result (gmap string value) :=
  match v with
  | VMap m => Ok m
  | _ => Err (ErrNew "unable to cast value to map[string]interface{}")
  end.

(** [cast.ToStringMap] *)
Definition ToStringMap (v : value) : gmap string value :=
  match ToStringMapE v with Ok m => m | Err _ => ∅ end.

(** [cast.ToStringMapStringE] *)
Definition ToStringMapStringE (v : value) : result (gmap string string) :=
  match v with
  | VMap m => Ok (ToString <$> m)
  | _ => Err (ErrNew "unable to cast value to map[string]string")
  end.

(** [cast.ToSliceE] *)
Definition ToSliceE (v : value) : result (list value) :=
  match v with
  | VList l => Ok l
  | _ => Err (ErrNew "unable to cast value to []interface{}")
  end.

End cast.

(** ** The admin API of the secrets server ([github.com/hashicorp/vault/api]) *)

Module api.

Record SealStatusResponse := {
  Sealed : bool;
  Progress : Z;
}.

Record InitRequest := {
  SecretShares : Z;
  SecretThreshold : Z;
  RecoveryShares : Z;
  RecoveryThreshold : Z;
}.

Record InitResponse := {
  Keys : list string;
  RecoveryKeys : list string;
  RootToken : string;
}.

Record TokenCreateRequest := {
  ID : string;
  Policies : list string;
  DisplayName : string;
  NoParent : bool;
}.

Record Secret := {
  Data : gmap string value;
  Warnings : list string;
}.

Record LeaderResponse := {
  IsSelf : bool;
  LeaderAddress : string;
}.

Record RaftJoinRequest := {
  LeaderAPIAddr : string;
  LeaderCACert : string;
}.

Record RaftJoinResponse := {
  Joined : bool;
}.

(** [consts.PluginType] *)
Inductive PluginType :=
  | PluginTypeUnknown
  | PluginTypeCredential
  | PluginTypeDatabase
  | PluginTypeSecrets.

Record RegisterPluginInput := {
  Name : string;
  Type_ : PluginType;
  Command : string;
  SHA256 : string;
}.

Record EnableAuditOptions := {
  AuditType : string;
  Description : string;
  Options : gmap string string;
  Local_ : bool;
}.

Record AuthMount := {
  Accessor : string;
}.

(** The requests the operator client sends. *)
Inductive Request :=
  | SysSealStatus
  | SysUnseal (key : string)
  | SysInitStatus
  | SysInit (opts : InitRequest)
  | SysHealth
  | SysLeader
  | SysRaftJoin (opts : RaftJoinRequest)
  | TokenCreateOrphan (opts : TokenCreateRequest)
  | TokenRevokeSelf (token : string)
  | SysListPlugins
  | SysRegisterPlugin (i : RegisterPluginInput)
  | SysListAudit
  | SysEnableAuditWithOptions (path : string) (options : EnableAuditOptions)
  | SysListAuth
  | LogicalWrite (path : string) (data : gmap string value)
  | LogicalRead (path : string)
  | LogicalList (path : string).

(** What a request answers when it does not fail. A [*Secret] may be nil. *)
Definition Response (q : Request) : Type :=
  match q with
  | SysSealStatus | SysUnseal _ => SealStatusResponse
  | SysInitStatus => bool
  | SysInit _ => InitResponse
  | SysHealth => Z
  | SysLeader => LeaderResponse
  | SysRaftJoin _ => RaftJoinResponse
  | TokenCreateOrphan _ => option Secret
  | TokenRevokeSelf _ => unit
  | SysListPlugins => list (PluginType * list string)
  | SysRegisterPlugin _ => unit
  | SysListAudit => gmap string EnableAuditOptions
  | SysEnableAuditWithOptions _ _ => unit
  | SysListAuth => gmap string AuthMount
  | LogicalWrite _ _ | LogicalRead _ | LogicalList _ => option Secret
  end.

End api.

(** The server behind an [*api.Client]: a request is sent under the
    client's token, the server answers and moves to its next state. *)
Class AdminAPI (V : Type) :=
  serve : string → ∀ q : api.Request, V → V * result (api.Response q).

(** The key store. [Set] is a sort of Rocq, so the method is [Set_]. *)
Class KVService (K : Type) := {
  Set_ : string → bytes → K → K * option error;
  Get : string → K → K * result bytes;
}.

(** [*viper.Viper], the desired-state document, with the three methods the
    client calls. [Unmarshal] decodes the whole document into the
    package-level [extConfig] it is given and [UnmarshalKey] decodes the
    value under a key into a slice of records. *)
Class Viper (D X : Type) := {
  Unmarshal : D → X → X * option error;
  UnmarshalKey : D → string → result (list (gmap string value));
  ViperGet : D → string → value;
}.

(** ** The calls a run makes, in order *)

Inductive Event :=
  | EvGet (key : string) (r : result bytes)
  | EvSet (key : string) (val : bytes) (r : option error)
  | EvSetToken (t : string)
  | EvRequest (token : string) (q : api.Request)
  | EvSleep (d : Z).

(** [time.Second], in nanoseconds. *)
Definition Second : Z := 1000000000.

(** How a call of a function of the client ends: it returns a value (with
    a nil error), returns an error, panics, or does not return: a loop
    without bound was not done within the number of rounds it was given,
    or the process was ended. *)
Inductive outcome (A : Type) :=
  | Ret (a : A)
  | Fail (e : error)
  | Panic (msg : string)
  | NoReturn.
Arguments Ret {A} a.
Arguments Fail {A} e.
Arguments Panic {A} msg.
Arguments NoReturn {A}.

(** [New]'s configuration error. *)
Definition threshold_error (config : Config) : error :=
  ErrNew ("the secret threshold can't be bigger than the shares ["
          +:+ pretty (SecretShares config) +:+ " < "
          +:+ pretty (SecretThreshold config) +:+ "]").

(** ** The operator client *)

Section core.

Context {K V D X : Type} `{!KVService K} `{!AdminAPI V} `{!Viper D X}.

(** The process environment: [os.Getenv] and [ioutil.ReadFile]. *)
Variable Getenv : string → string.
Variable ReadFile : string → result bytes.

(** [*api.Client]: the token it authenticates with and the server it
    talks to. *)
Record Client := {
  token : string;
  server : V;
}.

Record vault := {
  keyStore : K;
  cl : Client;
  config : Config;
  rotateCache : gmap string bool;
}.

(** [New] returns a new vault, or an error. *)
Definition New (k : K) (cl : Client) (config : Config) : result vault :=
  if SecretShares config <? SecretThreshold config then
    Err (threshold_error config)
  else
    Ok {| keyStore := k; cl := cl; config := config; rotateCache := ∅ |}.

(** What a method of [*vault] runs on: the vault, the package-level
    [extConfig], and the calls made so far. *)
Record World := {
  self : vault;
  extConfig : X;
  trace : list Event;
}.

Definition set_keyStore (k : K) (w : World) : World :=
  {| self := {| keyStore := k; cl := cl (self w); config := config (self w);
                rotateCache := rotateCache (self w) |};
     extConfig := extConfig w; trace := trace w |}.

Definition set_token (t : string) (w : World) : World :=
  {| self := {| keyStore := keyStore (self w);
                cl := {| token := t; server := server (cl (self w)) |};
                config := config (self w);
                rotateCache := rotateCache (self w) |};
     extConfig := extConfig w; trace := trace w |}.

Definition set_server (s : V) (w : World) : World :=
  {| self := {| keyStore := keyStore (self w);
                cl := {| token := token (cl (self w)); server := s |};
                config := config (self w);
                rotateCache := rotateCache (self w) |};
     extConfig := extConfig w; trace := trace w |}.

Definition set_extConfig (x : X) (w : World) : World :=
  {| self := self w; extConfig := x; trace := trace w |}.

Definition add_event (e : Event) (w : World) : World :=
  {| self := self w; extConfig := extConfig w; trace := trace w ++ [e] |}.

(** *** The monad of the client's functions: state, and a return that
    leaves the function. *)

Definition M (A : Type) : Type := World → World * outcome A.

#[global] Instance M_ret : MRet M := λ A a w, (w, Ret a).
#[global] Instance M_bind : MBind M := λ A B f m w,
  match m w with
  | (w', Ret a) => f a w'
  | (w', Fail e) => (w', Fail e)
  | (w', Panic msg) => (w', Panic msg)
  | (w', NoReturn) => (w', NoReturn)
  end.

(** [return err] *)
Definition fail {A} (e : error) : M A := λ w, (w, Fail e).
Definition panic {A} (msg : string) : M A := λ w, (w, Panic msg).
Definition no_return {A} : M A := λ w, (w, NoReturn).

(** [return err] of a possibly nil error. *)
Definition returning (err : option error) : M unit :=
  match err with Some e => fail e | None => mret tt end.

(** [x, err := f(); if err != nil { return errors.Wrap(err, msg) }] *)
Definition wrapping {A} (msg : string) (m : M A) : M A := λ w,
  match m w with
  | (w', Fail e) => (w', Fail (ErrWrap e msg))
  | r => r
  end.

(** [defer f()]: [f] runs when the body has returned or panicked, and
    does not when the body never hands control back. *)
Definition defer {A} (f : M unit) (body : M A) : M A := λ w,
  match body w with
  | (w', NoReturn) => (w', NoReturn)
  | (w', r) => (fst (f w'), r)
  end.

Fixpoint forEach {A} (f : A → M unit) (l : list A) : M unit :=
  match l with
  | [] => mret tt
  | x :: l' => f x;; forEach f l'
  end.

(** [for i, x := range l] *)
Definition forRange {A} (f : Z → A → M unit) (l : list A) : M unit :=
  forEach (λ ix, f (fst ix) (snd ix)) (zip (seqZ 0 (Z.of_nat (length l))) l).

(** *** The calls on the two capabilities *)

Definition v_config : M Config := λ w, (w, Ret (config (self w))).

Definition keyStore_Get (key : string) : M (result bytes) := λ w,
  let '(k', r) := Get key (keyStore (self w)) in
  (add_event (EvGet key r) (set_keyStore k' w), Ret r).

Definition keyStore_Set (key : string) (val : bytes) : M (option error) := λ w,
  let '(k', r) := Set_ key val (keyStore (self w)) in
  (add_event (EvSet key val r) (set_keyStore k' w), Ret r).

Definition cl_SetToken (t : string) : M unit := λ w,
  (add_event (EvSetToken t) (set_token t w), Ret tt).

Definition cl_request (q : api.Request) : M (result (api.Response q)) := λ w,
  let '(s', r) := serve (token (cl (self w))) q (server (cl (self w))) in
  (add_event (EvRequest (token (cl (self w))) q) (set_server s' w), Ret r).

Definition Sleep (d : Z) : M unit := λ w, (add_event (EvSleep d) w, Ret tt).

(** *** kvTester *)

Definition Test (key : string) : M unit :=
  r ← keyStore_Get key;
  match r with
  | Err err => if negb (isNotFoundError err) then fail err else mret tt
  | Ok _ => mret tt
  end;;
  err ← keyStore_Set key key;
  returning err.

(** *** Status queries *)

Definition Sealed : M (bool * option error) :=
  r ← cl_request api.SysSealStatus;
  match r with
  | Err err => mret (false, Some (ErrWrap err "error checking status"))
  | Ok resp => mret (api.Sealed resp, None)
  end.

Definition StatusOK : Z := 200.

Definition Active : M bool :=
  r ← cl_request api.SysHealth;
  match r with
  | Err err => fail (ErrWrap err "error checking status")
  | Ok StatusCode =>
      if StatusCode =? StatusOK then mret true
      else fail (ErrNew ("error unexpected status code: " +:+ pretty StatusCode))
  end.

Definition Leader : M bool :=
  r ← cl_request api.SysLeader;
  match r with
  | Err err => fail (ErrWrap err "error checking leader")
  | Ok resp => mret (api.IsSelf resp)
  end.

Definition LeaderAddress : M string :=
  r ← cl_request api.SysLeader;
  match r with
  | Err err => fail (ErrWrap err "error checking leader address")
  | Ok resp => mret (api.LeaderAddress resp)
  end.

(** *** Unseal

    [Unseal] retrieves keys from the key store and sends unseal requests
    until the server is unsealed. The Go loop [for i := 0; ; i++] has no
    bound; [fuel] is the number of rounds a run is followed for, and a run
    that needs more ends in [NoReturn]. *)

Definition bad_key_error : error :=
  ErrNew "failed to unseal vault, are you using the right unseal keys?".

Fixpoint Unseal_from (fuel : nat) (i : Z) : M unit :=
  match fuel with
  | O => no_return
  | S fuel' =>
      let keyID := unsealKeyForID i in
      r ← keyStore_Get keyID;
      match r with
      | Err err => fail (ErrWrap err ("unable to get key '" +:+ keyID +:+ "'"))
      | Ok k =>
          r ← cl_request (api.SysUnseal k);
          match r with
          | Err err => fail (ErrWrap err "fail to send unseal request to vault")
          | Ok resp =>
              if negb (api.Sealed resp) then mret tt
              else if api.Progress resp =? 0 then fail bad_key_error
              else Unseal_from fuel' (int_incr i)
          end
      end
  end.

Definition Unseal (fuel : nat) : M unit := Unseal_from fuel 0.

(** *** Existence-checked set *)

Definition keyStoreNotFound (key : string) : M (bool * option error) :=
  r ← keyStore_Get key;
  let err := match r with Err e => Some e | Ok _ => None end in
  if isNotFoundError_opt err then mret (true, None)
  else mret (false, err).

Definition keyStoreSet (key : string) (val : bytes) : M unit :=
  '(notFound, err) ← keyStoreNotFound key;
  if notFound : bool then
    err ← keyStore_Set key val;
    returning err
  else
    match err with
    | None => fail (ErrNew ("error setting key '" +:+ key +:+ "': it already exists"))
    | Some e => fail (ErrWrap e ("error setting key '" +:+ key +:+ "'"))
    end.

(** *** Init *)

(** The wait for the server to be unsealed, [fuel] polls long. *)
Fixpoint waitUnsealed (fuel : nat) : M unit :=
  match fuel with
  | O => no_return
  | S fuel' =>
      let wait := Second * 2 in
      '(sealed, err) ← Sealed;
      if negb sealed then mret tt
      else Sleep wait;; waitUnsealed fuel'
  end.

Definition already_exists_error (key : string) : error :=
  ErrNew ("error before init: value for key '" +:+ key +:+ "' already exists").

(** [Init] initializes Vault if it is not initialized already. The list of
    keys is the one the Go loop [for i := 0; i <= SecretShares; i++] builds
    for a [SecretShares] below the largest [int]. *)
Definition Init (fuel : nat) : M unit :=
  r ← cl_request api.SysInitStatus;
  match r with
  | Err err => fail (ErrWrap err "error testing if vault is initialized")
  | Ok initialized =>
  if initialized : bool then mret tt else
  cfg ← v_config;
  (if PreFlightChecks cfg then
     wrapping "error testing keystore before init" (Test testKey)
   else mret tt);;
  let keys := [rootTokenKey] ++ (unsealKeyForID <$> seqZ 0 (SecretShares cfg + 1)) in
  forEach (λ key,
    '(notFound, err) ← keyStoreNotFound key;
    match notFound, err with
    | true, Some e =>
        fail (ErrWrap e ("error before init: checking key '" +:+ key +:+ "' failed"))
    | false, None => fail (already_exists_error key)
    | _, _ => mret tt
    end) keys;;
  r ← cl_request (api.SysInit {|
         api.SecretShares := SecretShares cfg;
         api.SecretThreshold := SecretThreshold cfg;
         api.RecoveryShares := SecretShares cfg;
         api.RecoveryThreshold := SecretThreshold cfg |});
  match r with
  | Err err => fail (ErrWrap err "error initializing vault")
  | Ok resp =>
  forRange (λ i k,
    let keyID := unsealKeyForID i in
    wrapping ("error storing unseal key '" +:+ keyID +:+ "'") (keyStoreSet keyID k))
    (api.Keys resp);;
  forRange (λ i k,
    let keyID := recoveryKeyForID i in
    wrapping ("error storing recovery key '" +:+ keyID +:+ "'") (keyStoreSet keyID k))
    (api.RecoveryKeys resp);;
  rootToken ←
    (if bool_decide (InitRootToken cfg ≠ "") then
       waitUnsealed fuel;;
       cl_SetToken (api.RootToken resp);;
       r ← cl_request (api.TokenCreateOrphan {|
              api.ID := InitRootToken cfg;
              api.Policies := ["root"];
              api.DisplayName := "root-token";
              api.NoParent := true |});
       match r with
       | Err err =>
           fail (ErrWrap err ("unable to setup requested root token, (temporary root token: '"
                              +:+ api.RootToken resp +:+ "')"))
       | Ok _ =>
           r ← cl_request (api.TokenRevokeSelf (api.RootToken resp));
           match r with
           | Err err => fail (ErrWrap err "unable to revoke temporary root token")
           | Ok _ => mret (InitRootToken cfg)
           end
       end
     else mret (api.RootToken resp));
  if StoreRootToken cfg then
    wrapping ("error storing root token '" +:+ rootToken +:+ "' in key'" +:+ rootTokenKey +:+ "'")
             (keyStoreSet rootTokenKey (api.RootToken resp))
  else mret tt
  end
  end.

(** *** Raft *)

Definition RaftInitialized : M bool :=
  r ← keyStore_Get rootTokenKey;
  match r with
  | Err err =>
      if isNotFoundError err then mret false
      else fail (ErrWrap err ("unable to get key '" +:+ rootTokenKey +:+ "'"))
  | Ok rootToken => mret (bool_decide (0 < String.length rootToken)%nat)
  end.

Definition EnvVaultCACert : string := "VAULT_CACERT".

Definition RaftJoin (leaderAPIAddr : string) : M unit :=
  skip ←
    (if bool_decide (leaderAPIAddr ≠ "") then
       r ← cl_request api.SysInitStatus;
       match r with
       | Err err => fail (ErrWrap err "error testing if vault is initialized")
       | Ok initialized => mret initialized
       end
     else mret (strings.HasSuffix (Getenv "POD_NAME") "-0"));
  if skip : bool then mret tt else
  let raftCacertFile := Getenv "VAULT_RAFT_CACERT" in
  let raftCacertFile :=
    if bool_decide (raftCacertFile = "") then Getenv EnvVaultCACert else raftCacertFile in
  LeaderCACert ←
    (if bool_decide (raftCacertFile ≠ "") then
       match ReadFile raftCacertFile with
       | Err err => fail (ErrWrap err "error reading vault raft CA certificate")
       | Ok leaderCACert => mret leaderCACert
       end
     else mret "");
  r ← cl_request (api.SysRaftJoin {|
         api.LeaderAPIAddr := leaderAPIAddr; api.LeaderCACert := LeaderCACert |});
  match r with
  | Err err => fail (ErrWrap err "error joining raft cluster")
  | Ok response =>
      if api.Joined response then mret tt
      else fail (ErrNew "vault hasn't joined raft cluster")
  end.

(** *** Configure: the reconciler *)

(** The three reconcilers [Configure] delegates to are functions of the
    package that live in other files ([configureAuthMethods],
    [configurePolicies], [configureSecretsEngines]); they read the
    package-level [extConfig] and talk to the server through [v.cl]. *)
Variable configureAuthMethods : M unit.
Variable configurePolicies : M unit.
Variable configureSecretsEngines : M unit.

(** [consts.ParsePluginType] of Vault's SDK and [mapstructure.Decode] into
    an [api.EnableAuditOptions]. *)
Variable ParsePluginType : string → result api.PluginType.
Variable DecodeAuditOptions : gmap string value → result api.EnableAuditOptions.

(** The Kubernetes client of controller-runtime. [GetConfigOrDie] ends the
    process when it finds no configuration ([None]); [crclient_New] builds
    the client or fails; [crclient_Get namespace name] fetches the data of
    a secret object. *)
Variable GetConfigOrDie : option unit.
Variable crclient_New : option error.
Variable crclient_Get : string → string → result (gmap string bytes).

(** A pure function's [(value, error)] as the function's return. *)
Definition lift {A} (r : result A) : M A :=
  match r with Ok a => mret a | Err e => fail e end.

(** The verb [%s] on a dynamic value: a string is printed as it is; for
    the other values the rendering of [cast.ToString] stands in. *)
Definition fmt_s (v : value) : string := cast.ToString v.

Definition Unmarshal_extConfig (config : D) : M (option error) := λ w,
  let '(x', err) := Unmarshal config (extConfig w) in
  (set_extConfig x' w, Ret err).

Definition getOrError (m : gmap string value) (key : string) : result string :=
  let value := index m key in
  if negb (is_nil value) then cast.ToStringE value
  else Err (ErrNew ("value for " +:+ key +:+ " is not set")).

Definition getOrDefaultStringMap (m : gmap string value) (key : string)
  : result (gmap string value) :=
  let value := index m key in
  if negb (is_nil value) then cast.ToStringMapE value
  else Ok ∅.

(** [toSliceStringMapE] sends the value through JSON and back into a
    [[]map[string]interface{}]: null is the nil slice, an array of objects
    (or nulls) is decoded, anything else is an error of the decoder. *)
Fixpoint decode_objects (l : list value) : result (list (gmap string value)) :=
  match l with
  | [] => Ok []
  | v :: l' =>
      match v, decode_objects l' with
      | VMap m, Ok ms => Ok (m :: ms)
      | VNil, Ok ms => Ok (∅ :: ms)
      | _, Err e => Err e
      | _, _ => Err (ErrNew "json: cannot unmarshal into Go value of type map[string]interface {}")
      end
  end.

Definition toSliceStringMapE (o : value) : result (list (gmap string value)) :=
  match o with
  | VNil => Ok []
  | VList l => decode_objects l
  | _ => Err (ErrNew "json: cannot unmarshal into Go value of type []map[string]interface {}")
  end.

Definition writeWithWarningCheck (path : string) (data : gmap string value)
  : M (option api.Secret) :=
  r ← cl_request (api.LogicalWrite path data);
  match r with
  | Err err => fail err
  | Ok sec => mret sec
  end.

Definition configurePlugins (config : D) : M unit :=
  match UnmarshalKey config "plugins" with
  | Err err => fail (ErrWrap err "error unmarshalling vault plugins config")
  | Ok plugins =>
  if bool_decide (length plugins = 0%nat) then mret tt else
  r ← cl_request api.SysListPlugins;
  match r with
  | Err err => fail (ErrWrap err "failed to retrieve list of plugins")
  | Ok listPlugins =>
  forEach (λ plugin,
    command ← wrapping "error getting command for plugin" (lift (getOrError plugin "command"));
    pluginName ← wrapping "error getting plugin_name for plugin" (lift (getOrError plugin "plugin_name"));
    sha256 ← wrapping "error getting sha256 for plugin" (lift (getOrError plugin "sha256"));
    typeRaw ← wrapping "error getting type for plugin" (lift (getOrError plugin "type"));
    pluginType ← wrapping "error parsing type for plugin" (lift (ParsePluginType typeRaw));
    let input := {| api.Name := pluginName; api.Command := command;
                    api.SHA256 := sha256; api.Type_ := pluginType |} in
    r ← cl_request (api.SysRegisterPlugin input);
    match r with
    | Err err => fail (ErrWrap err ("error registering plugin " +:+ pluginName +:+ " in vault"))
    | Ok _ => mret tt
    end) plugins
  end
  end.

Definition configureAuditDevices (config : D) : M unit :=
  match UnmarshalKey config "audit" with
  | Err err => fail (ErrWrap err "error unmarshalling audit devices config")
  | Ok auditDevices =>
  forEach (λ auditDevice,
    auditDeviceType ← wrapping "error finding type for audit device"
                        (lift (cast.ToStringE (index auditDevice "type")));
    path ←
      match auditDevice !! "path" with
      | Some pathOverwrite =>
          path ← wrapping "error converting path for audit device"
                   (lift (cast.ToStringE pathOverwrite));
          mret (strings.Trim path "/")
      | None => mret auditDeviceType
      end;
    r ← cl_request api.SysListAudit;
    match r with
    | Err err => fail (ErrWrap err "error reading audit mounts from vault")
    | Ok mounts =>
        match mounts !! (path +:+ "/") with
        | None =>
            options ← wrapping "error parsing audit options"
                        (lift (DecodeAuditOptions auditDevice));
            r ← cl_request (api.SysEnableAuditWithOptions path options);
            match r with
            | Err err => fail (ErrWrap err ("error enabling audit device " +:+ path +:+ " in vault"))
            | Ok _ => mret tt
            end
        | Some _ => mret tt
        end
    end) auditDevices
  end.

(** The secrets a [secretKeyRef] names, read from Kubernetes. *)
Fixpoint readSecretData (vaultNamespace : string) (values : list value)
    (secData : gmap string string) : result (gmap string string) :=
  match values with
  | [] => Ok secData
  | value :: values' =>
      match cast.ToStringMapStringE value with
      | Err err => Err err
      | Ok keyRef =>
          match crclient_Get vaultNamespace (default "" (keyRef !! "name")) with
          | Err err => Err err
          | Ok secret =>
              let key := default "" (keyRef !! "key") in
              readSecretData vaultNamespace values'
                (<[key := default "" (secret !! key)]> secData)
          end
      end
  end.

Definition getOrDefaultSecretData (m : value) : M (gmap string value) :=
  values ← lift (cast.ToSliceE m);
  match GetConfigOrDie with
  | None => no_return
  | Some k8sCfg =>
      match crclient_New with
      | Some err => fail err
      | None =>
          let vaultNamespace := Getenv "NAMESPACE" in
          secData ← lift (readSecretData vaultNamespace values ∅);
          mret {[ "data" := VMap (VString <$> secData) ]}
      end
  end.

Definition readStartupSecret (startupSecret : gmap string value)
  : M (string * gmap string value) :=
  path ← wrapping "error findind path for startup secret"
           (lift (cast.ToStringE (index startupSecret "path")));
  data ← wrapping ("error getting data for startup secret '" +:+ path +:+ "'")
           (lift (getOrDefaultStringMap startupSecret "data"));
  match data !! "secretKeyRef" with
  | Some secretKeyRef =>
      secData ← wrapping "error getting data from k8s secret"
                  (getOrDefaultSecretData secretKeyRef);
      mret (path, secData)
  | None => mret (path, data)
  end.

(** The values of the map are taken in the order of [map_to_list]; Go's
    order of iteration over a map is not specified. *)
Definition generateCertPayload (data : value) : result (gmap string value) :=
  match cast.ToStringMapStringE data with
  | Err err => Err (ErrWrap err "cast to map[string]... failed")
  | Ok pkiData =>
      let pkiSlice := snd <$> map_to_list pkiData in
      if bool_decide (length pkiSlice < 2)%nat then
        Err (ErrNew "missing key or certificate in pki data")
      else Ok {[ "pem_bundle" := VString (strings.Join pkiSlice (String "010" "")) ]}
  end.

Definition configureStartupSecrets (config : D) : M unit :=
  let raw := ViperGet config "startupSecrets" in
  match toSliceStringMapE raw with
  | Err err => fail (ErrWrap err "error decoding data for startup secrets")
  | Ok startupSecrets =>
  forEach (λ startupSecret,
    startupSecretType ← wrapping "error finding type for startup secret"
                          (lift (cast.ToStringE (index startupSecret "type")));
    if bool_decide (startupSecretType = "kv") then
      '(path, data) ← wrapping "unable to read 'kv' startup secret"
                        (readStartupSecret startupSecret);
      wrapping ("error writing data for startup 'kv' secret '" +:+ path +:+ "'")
               (writeWithWarningCheck path data);;
      mret tt
    else if bool_decide (startupSecretType = "pki") then
      '(path, data) ← wrapping "unable to read 'pki' startup secret"
                        (readStartupSecret startupSecret);
      certData ← wrapping "error generating 'pki' startup secret"
                   (lift (generateCertPayload (index data "data")));
      wrapping ("error writing data for startup 'pki' secret '" +:+ path +:+ "'")
               (writeWithWarningCheck path certData);;
      mret tt
    else
      fail (ErrNew ("'" +:+ startupSecretType
                    +:+ "' startup secret type is not supported, only 'kv' or 'pki'")))
    startupSecrets
  end.

(** *** Identity groups and group aliases *)

Definition readVaultGroup (group : string) : M (option api.Secret) :=
  r ← cl_request (api.LogicalRead ("identity/group/name/" +:+ group));
  match r with
  | Err err => fail (ErrWrap err ("failed to read group " +:+ group +:+ " by name"))
  | Ok secret => mret secret
  end.

Definition readVaultGroupAlias (id : string) : M (option api.Secret) :=
  r ← cl_request (api.LogicalRead ("identity/group-alias/id/" +:+ id));
  match r with
  | Err err => fail (ErrWrap err ("failed to read group alias by id " +:+ id))
  | Ok secret => mret secret
  end.

Definition getVaultAuthMountAccessor (path : string) : M string :=
  let path := strings.TrimRight path "/" +:+ "/" in
  r ← cl_request api.SysListAuth;
  match r with
  | Err err => fail (ErrWrap err "failed to read auth mounts from vault")
  | Ok mounts =>
      match mounts !! path with
      | None => fail (ErrNew ("auth mount path " +:+ path +:+ " does not exist in vault"))
      | Some mount => mret (api.Accessor mount)
      end
  end.

(** [x.(string)]: the type assertion panics on anything but a string. *)
Definition assert_string (x : value) : M string :=
  match x with
  | VString s => mret s
  | _ => panic "interface conversion: interface {} is not string"
  end.

Definition getVaultGroupID (group : string) : M string :=
  g ← wrapping ("error reading group " +:+ group) (readVaultGroup group);
  match g with
  | None => fail (ErrNew ("group " +:+ group +:+ " does not exist"))
  | Some g => assert_string (index (api.Data g) "id")
  end.

Definition getVaultGroupAliasName (aliasID : string) : M string :=
  alias ← wrapping ("error reading group alias " +:+ aliasID) (readVaultGroupAlias aliasID);
  match alias with
  | None => fail (ErrNew ("group alias " +:+ aliasID +:+ " does not exist"))
  | Some alias => assert_string (index (api.Data alias) "name")
  end.

Definition getVaultGroupAliasMount (aliasID : string) : M string :=
  alias ← wrapping ("error reading group alias " +:+ aliasID) (readVaultGroupAlias aliasID);
  match alias with
  | None => fail (ErrNew ("group alias " +:+ aliasID +:+ " does not exist"))
  | Some alias => assert_string (index (api.Data alias) "mount_accessor")
  end.

(** The loop of [findVaultGroupAliasIDFromNameAndMount] over the listed
    alias ids. *)
Fixpoint scanGroupAliases (name accessor : string) (keys : list value) : M string :=
  match keys with
  | [] => mret ""
  | alias :: keys' =>
      aliasName ← wrapping ("error fetching name for alias id: " +:+ fmt_s alias +:+ " err")
                    (getVaultGroupAliasName (cast.ToString alias));
      aliasMount ← wrapping ("error fetching mount for alias id: " +:+ fmt_s alias +:+ " err")
                     (getVaultGroupAliasMount (cast.ToString alias));
      if bool_decide (aliasName = name) && bool_decide (aliasMount = accessor) then
        mret (cast.ToString alias)
      else scanGroupAliases name accessor keys'
  end.

Definition findVaultGroupAliasIDFromNameAndMount (name accessor : string) : M string :=
  r ← cl_request (api.LogicalList "identity/group-alias/id");
  match r with
  | Err err => fail (ErrWrap err "error listing group aliases")
  | Ok None => mret ""
  | Ok (Some aliases) =>
      match index (api.Data aliases) "keys" with
      | VList keys => scanGroupAliases name accessor keys
      | _ => panic "interface conversion: interface {} is not []interface {}"
      end
  end.

Definition configureGroup (group : gmap string value) : M unit :=
  g ← wrapping "error reading group" (readVaultGroup (cast.ToString (index group "name")));
  if bool_decide (cast.ToString (index group "type") ≠ "external") then
    fail (ErrNew "only external groups are supported for now")
  else
    let config : gmap string value :=
      {[ "name" := VString (cast.ToString (index group "name"));
         "type" := VString (cast.ToString (index group "type"));
         "policies" := VList (VString <$> cast.ToStringSlice (index group "policies"));
         "metadata" := VMap (cast.ToStringMap (index group "metadata")) ]} in
    match g with
    | None =>
        wrapping ("failed to create group " +:+ fmt_s (index group "name"))
                 (writeWithWarningCheck "identity/group" config);;
        mret tt
    | Some _ =>
        wrapping ("failed to tune group " +:+ fmt_s (index group "name"))
                 (writeWithWarningCheck
                    ("identity/group/name/" +:+ fmt_s (index group "name")) config);;
        mret tt
    end.

Definition configureGroupAlias (groupAlias : gmap string value) : M unit :=
  accessor ← wrapping ("error getting mount accessor for " +:+ fmt_s (index groupAlias "mountpath"))
               (getVaultAuthMountAccessor (cast.ToString (index groupAlias "mountpath")));
  id ← wrapping ("error getting canonical_id for group " +:+ fmt_s (index groupAlias "group"))
         (getVaultGroupID (cast.ToString (index groupAlias "group")));
  let config : gmap string value :=
    {[ "name" := VString (cast.ToString (index groupAlias "name"));
       "mount_accessor" := VString accessor;
       "canonical_id" := VString id ]} in
  ga ← wrapping ("error finding group-alias " +:+ fmt_s (index groupAlias "name"))
         (findVaultGroupAliasIDFromNameAndMount
            (cast.ToString (index groupAlias "name")) accessor);
  if bool_decide (ga = "") then
    wrapping ("failed to create group-alias " +:+ fmt_s (index groupAlias "name"))
             (writeWithWarningCheck "identity/group-alias" config);;
    mret tt
  else
    wrapping ("failed to tune group-alias " +:+ ga)
             (writeWithWarningCheck ("identity/group-alias/id/" +:+ ga) config);;
    mret tt.

(** [configureIdentityGroups]; the bodies of its two loops are
    [configureGroup] and [configureGroupAlias]. *)
Definition configureIdentityGroups (config : D) : M unit :=
  match UnmarshalKey config "groups" with
  | Err err => fail (ErrWrap err "error unmarshalling vault groups config")
  | Ok groups =>
  match UnmarshalKey config "group-aliases" with
  | Err err => fail (ErrWrap err "error unmarshalling vault group aliases config")
  | Ok groupAliases =>
      forEach configureGroup groups;;
      forEach configureGroupAlias groupAliases
  end
  end.

(** The body of [Configure] once the token is set and its clearing is
    deferred. *)
Definition Configure_steps (config : D) : M unit :=
  err ← Unmarshal_extConfig config;
  wrapping "error loading externalConfig" (returning err);;
  wrapping "error configuring auth methods for vault" configureAuthMethods;;
  wrapping "error configuring policies for vault" configurePolicies;;
  wrapping "error configuring secret engines for vault" configureSecretsEngines;;
  wrapping "error configuring plugins for vault" (configurePlugins config);;
  wrapping "error configuring audit devices for vault" (configureAuditDevices config);;
  wrapping "error writing startup secrets to vault" (configureStartupSecrets config);;
  wrapping "error writing groups configurations for vault" (configureIdentityGroups config).

Definition Configure (config : D) : M unit :=
  r ← keyStore_Get rootTokenKey;
  match r with
  | Err err => fail (ErrWrap err ("unable to get key '" +:+ rootTokenKey +:+ "'"))
  | Ok rootToken =>
      cl_SetToken rootToken;;
      defer (cl_SetToken "") (Configure_steps config)
  end.

End core.

(** ** In-memory doubles of the capabilities

    A key store in memory whose keys in [kv_broken] cannot be read or
    written, a small secrets server, and a document held as a map. *)

Record MemKV := {
  kv_data : gmap string bytes;
  kv_broken : gset string;
}.

Definition unavailable : error := ErrStore false "key store is not available".

#[export] Instance MemKV_service : KVService MemKV := {|
  Get key k :=
    (k, if bool_decide (key ∈ kv_broken k) then Err unavailable
        else match kv_data k !! key with
             | Some val => Ok val
             | None => Err (ErrStore true ("key '" +:+ key +:+ "' is not present"))
             end);
  Set_ key val k :=
    if bool_decide (key ∈ kv_broken k) then (k, Some unavailable)
    else ({| kv_data := <[key := val]> (kv_data k); kv_broken := kv_broken k |}, None);
|}.

(** An alias of the identity store: id, name, mount accessor, canonical id. *)
Record GroupAlias := {
  ga_id : string;
  ga_name : string;
  ga_mount : string;
  ga_canonical : string;
}.

Record FakeVault := {
  fv_initialized : bool;
  fv_sealed : bool;
  fv_progress : Z;
  fv_threshold : Z;
  fv_keys : list string;
  fv_tokens : list string;
  (* the seal-status requests still to fail, and the polls after which an
     operator has unsealed the server *)
  fv_unreachable : nat;
  fv_unsealed_after : option nat;
  fv_auth : gmap string api.AuthMount;
  fv_audit : gmap string api.EnableAuditOptions;
  fv_plugins : list api.RegisterPluginInput;
  fv_groups : gmap string string;
  fv_aliases : list GroupAlias;
  fv_logical : gmap string (gmap string value);
}.

Definition fv_with_seal (sealed : bool) (progress : Z) (s : FakeVault) : FakeVault :=
  {| fv_initialized := fv_initialized s; fv_sealed := sealed; fv_progress := progress;
     fv_threshold := fv_threshold s; fv_keys := fv_keys s; fv_tokens := fv_tokens s;
     fv_unreachable := fv_unreachable s; fv_unsealed_after := fv_unsealed_after s;
     fv_auth := fv_auth s; fv_audit := fv_audit s; fv_plugins := fv_plugins s;
     fv_groups := fv_groups s; fv_aliases := fv_aliases s; fv_logical := fv_logical s |}.

Definition fv_with_polls (unreachable : nat) (after : option nat) (s : FakeVault) : FakeVault :=
  {| fv_initialized := fv_initialized s; fv_sealed := fv_sealed s; fv_progress := fv_progress s;
     fv_threshold := fv_threshold s; fv_keys := fv_keys s; fv_tokens := fv_tokens s;
     fv_unreachable := unreachable; fv_unsealed_after := after;
     fv_auth := fv_auth s; fv_audit := fv_audit s; fv_plugins := fv_plugins s;
     fv_groups := fv_groups s; fv_aliases := fv_aliases s; fv_logical := fv_logical s |}.

Definition fv_with_init (keys : list string) (threshold : Z) (root : string)
    (s : FakeVault) : FakeVault :=
  {| fv_initialized := true; fv_sealed := true; fv_progress := 0;
     fv_threshold := threshold; fv_keys := keys; fv_tokens := root :: fv_tokens s;
     fv_unreachable := fv_unreachable s; fv_unsealed_after := fv_unsealed_after s;
     fv_auth := fv_auth s; fv_audit := fv_audit s; fv_plugins := fv_plugins s;
     fv_groups := fv_groups s; fv_aliases := fv_aliases s; fv_logical := fv_logical s |}.

Definition fv_with_tokens (tokens : list string) (s : FakeVault) : FakeVault :=
  {| fv_initialized := fv_initialized s; fv_sealed := fv_sealed s; fv_progress := fv_progress s;
     fv_threshold := fv_threshold s; fv_keys := fv_keys s; fv_tokens := tokens;
     fv_unreachable := fv_unreachable s; fv_unsealed_after := fv_unsealed_after s;
     fv_auth := fv_auth s; fv_audit := fv_audit s; fv_plugins := fv_plugins s;
     fv_groups := fv_groups s; fv_aliases := fv_aliases s; fv_logical := fv_logical s |}.

Definition fv_with_mounts (audit : gmap string api.EnableAuditOptions)
    (plugins : list api.RegisterPluginInput) (s : FakeVault) : FakeVault :=
  {| fv_initialized := fv_initialized s; fv_sealed := fv_sealed s; fv_progress := fv_progress s;
     fv_threshold := fv_threshold s; fv_keys := fv_keys s; fv_tokens := fv_tokens s;
     fv_unreachable := fv_unreachable s; fv_unsealed_after := fv_unsealed_after s;
     fv_auth := fv_auth s; fv_audit := audit; fv_plugins := plugins;
     fv_groups := fv_groups s; fv_aliases := fv_aliases s; fv_logical := fv_logical s |}.

Definition fv_with_identity (groups : gmap string string) (aliases : list GroupAlias)
    (logical : gmap string (gmap string value)) (s : FakeVault) : FakeVault :=
  {| fv_initialized := fv_initialized s; fv_sealed := fv_sealed s; fv_progress := fv_progress s;
     fv_threshold := fv_threshold s; fv_keys := fv_keys s; fv_tokens := fv_tokens s;
     fv_unreachable := fv_unreachable s; fv_unsealed_after := fv_unsealed_after s;
     fv_auth := fv_auth s; fv_audit := fv_audit s; fv_plugins := fv_plugins s;
     fv_groups := groups; fv_aliases := aliases; fv_logical := logical |}.

Definition sealed_error : error := ErrNew "Vault is sealed".
Definition denied_error : error := ErrNew "permission denied".

Definition alias_secret (a : GroupAlias) : api.Secret :=
  {| api.Data := {[ "id" := VString (ga_id a); "name" := VString (ga_name a);
                    "mount_accessor" := VString (ga_mount a);
                    "canonical_id" := VString (ga_canonical a) ]};
     api.Warnings := [] |}.

Definition alias_of_data (id : string) (data : gmap string value) : GroupAlias :=
  {| ga_id := id;
     ga_name := cast.ToString (index data "name");
     ga_mount := cast.ToString (index data "mount_accessor");
     ga_canonical := cast.ToString (index data "canonical_id") |}.

Definition find_alias (id : string) (l : list GroupAlias) : option GroupAlias :=
  list_find (λ a, ga_id a = id) l ≫= λ ia, Some (snd ia).

Definition update_alias (id : string) (data : gmap string value) (l : list GroupAlias)
  : list GroupAlias :=
  (λ a, if bool_decide (ga_id a = id) then alias_of_data id data else a) <$> l.

Definition strip_prefix (p s : string) : option string :=
  if strings.HasPrefix s p then Some (String.substring (String.length p)
                                        (String.length s - String.length p) s)
  else None.

(** A privileged request of the double needs an unsealed server and a
    token the server knows. *)
Definition fv_allows (tok : string) (s : FakeVault) : option error :=
  if fv_sealed s then Some sealed_error
  else if bool_decide (tok ∈ fv_tokens s) then None
  else Some denied_error.

Definition fv_guard {A} (tok : string) (s : FakeVault) (k : FakeVault * result A)
  : FakeVault * result A :=
  match fv_allows tok s with
  | Some e => (s, Err e)
  | None => k
  end.

Definition fv_write (path : string) (data : gmap string value) (s : FakeVault)
  : FakeVault * result (option api.Secret) :=
  if bool_decide (path = "identity/group") then
    let name := cast.ToString (index data "name") in
    (fv_with_identity (<[name := "group-" +:+ name]> (fv_groups s)) (fv_aliases s)
       (fv_logical s) s, Ok None)
  else if bool_decide (path = "identity/group-alias") then
    let id := "alias-" +:+ pretty (length (fv_aliases s)) in
    (fv_with_identity (fv_groups s) (fv_aliases s ++ [alias_of_data id data])
       (fv_logical s) s, Ok None)
  else
    match strip_prefix "identity/group-alias/id/" path with
    | Some id =>
        (fv_with_identity (fv_groups s) (update_alias id data (fv_aliases s))
           (fv_logical s) s, Ok None)
    | None =>
        (fv_with_identity (fv_groups s) (fv_aliases s)
           (<[path := data]> (fv_logical s)) s, Ok None)
    end.

Definition fv_read (path : string) (s : FakeVault) : option api.Secret :=
  match strip_prefix "identity/group/name/" path with
  | Some name =>
      id ← fv_groups s !! name;
      Some {| api.Data := {[ "id" := VString id; "name" := VString name ]};
              api.Warnings := [] |}
  | None =>
      match strip_prefix "identity/group-alias/id/" path with
      | Some id => alias_secret <$> find_alias id (fv_aliases s)
      | None =>
          data ← fv_logical s !! path;
          Some {| api.Data := data; api.Warnings := [] |}
      end
  end.

Definition fv_list (path : string) (s : FakeVault) : option api.Secret :=
  if bool_decide (path = "identity/group-alias/id") then
    match fv_aliases s with
    | [] => None
    | l => Some {| api.Data := {[ "keys" := VList ((λ a, VString (ga_id a)) <$> l) ]};
                   api.Warnings := [] |}
    end
  else None.

Definition fv_poll (s : FakeVault) : FakeVault :=
  match fv_unsealed_after s with
  | Some O => fv_with_polls (fv_unreachable s) None (fv_with_seal false 0 s)
  | Some (S n) => fv_with_polls (fv_unreachable s) (Some n) s
  | None => s
  end.

#[export] Instance FakeVault_api : AdminAPI FakeVault := λ tok q,
  match q return FakeVault → FakeVault * result (api.Response q) with
  | api.SysSealStatus => λ s,
      match fv_unreachable s with
      | S n => (fv_with_polls n (fv_unsealed_after s) s, Err (ErrNew "connection refused"))
      | O => let s' := fv_poll s in
             (s', Ok {| api.Sealed := fv_sealed s'; api.Progress := fv_progress s' |})
      end
  | api.SysUnseal key => λ s,
      if negb (fv_sealed s) then (s, Ok {| api.Sealed := false; api.Progress := 0 |})
      else if bool_decide (key ∈ fv_keys s) then
        if fv_threshold s <=? fv_progress s + 1 then
          (fv_with_seal false 0 s, Ok {| api.Sealed := false; api.Progress := 0 |})
        else
          (fv_with_seal true (fv_progress s + 1) s,
           Ok {| api.Sealed := true; api.Progress := fv_progress s + 1 |})
      else (fv_with_seal true 0 s, Ok {| api.Sealed := true; api.Progress := 0 |})
  | api.SysInitStatus => λ s, (s, Ok (fv_initialized s))
  | api.SysInit opts => λ s,
      if fv_initialized s then (s, Err (ErrNew "Vault is already initialized"))
      else
        let ids := seqZ 0 (api.SecretShares opts) in
        let keys := (λ i, "share-" +:+ pretty i) <$> ids in
        let rkeys := (λ i, "rshare-" +:+ pretty i) <$> seqZ 0 (api.RecoveryShares opts) in
        (fv_with_init keys (api.SecretThreshold opts) "s.generated" s,
         Ok {| api.Keys := keys; api.RecoveryKeys := rkeys; api.RootToken := "s.generated" |})
  | api.SysHealth => λ s,
      (s, Ok (if negb (fv_initialized s) then 501 else if fv_sealed s then 503 else 200))
  | api.SysLeader => λ s, (s, Ok {| api.IsSelf := true; api.LeaderAddress := "" |})
  | api.SysRaftJoin opts => λ s, (s, Ok {| api.Joined := negb (fv_initialized s) |})
  | api.TokenCreateOrphan opts => λ s,
      fv_guard tok s (fv_with_tokens (fv_tokens s ++ [api.ID opts]) s, Ok None)
  | api.TokenRevokeSelf t => λ s,
      fv_guard tok s
        (fv_with_tokens (filter (λ x, x ≠ tok) (fv_tokens s)) s, Ok tt)
  | api.SysListPlugins => λ s, fv_guard tok s (s, Ok [])
  | api.SysRegisterPlugin i => λ s,
      fv_guard tok s (fv_with_mounts (fv_audit s) (fv_plugins s ++ [i]) s, Ok tt)
  | api.SysListAudit => λ s, fv_guard tok s (s, Ok (fv_audit s))
  | api.SysEnableAuditWithOptions path options => λ s,
      fv_guard tok s
        (fv_with_mounts (<[path +:+ "/" := options]> (fv_audit s)) (fv_plugins s) s, Ok tt)
  | api.SysListAuth => λ s, fv_guard tok s (s, Ok (fv_auth s))
  | api.LogicalWrite path data => λ s, fv_guard tok s (fv_write path data s)
  | api.LogicalRead path => λ s, fv_guard tok s (s, Ok (fv_read path s))
  | api.LogicalList path => λ s, fv_guard tok s (s, Ok (fv_list path s))
  end.

(** The document as a map from its top-level keys; [extConfig] is not
    looked into and stays what it is. *)
Definition decode_records (v : value) : result (list (gmap string value)) :=
  match v with
  | VNil => Ok []
  | VList l =>
      foldr (λ x acc,
        match x, acc with
        | VMap m, Ok ms => Ok (m :: ms)
        | _, Err e => Err e
        | _, _ => Err (ErrNew "expected a map")
        end) (Ok []) l
  | _ => Err (ErrNew "expected a slice")
  end.

#[export] Instance Document_viper : Viper (gmap string value) unit := {|
  Unmarshal d x := (x, None);
  UnmarshalKey d key := decode_records (index d key);
  ViperGet d key := index d key;
|}.

(** [consts.ParsePluginType] as Vault's SDK defines it. *)
Definition sdk_ParsePluginType (pluginType : string) : result api.PluginType :=
  if bool_decide (pluginType = "unknown") then Ok api.PluginTypeUnknown
  else if bool_decide (pluginType = "auth") then Ok api.PluginTypeCredential
  else if bool_decide (pluginType = "database") then Ok api.PluginTypeDatabase
  else if bool_decide (pluginType = "secret") then Ok api.PluginTypeSecrets
  else Err (ErrNew (pluginType +:+ " is not a supported plugin type")).

Definition decode_audit (m : gmap string value) : result api.EnableAuditOptions :=
  Ok {| api.AuditType := cast.ToString (index m "type");
        api.Description := cast.ToString (index m "description");
        api.Options := cast.ToString <$> cast.ToStringMap (index m "options");
        api.Local_ := false |}.

(** A vault on the two doubles, its client not yet authenticated, and the
    world a first call of a method runs on. *)
Definition double_vault (k : MemKV) (s : FakeVault) (c : Config) : vault :=
  {| keyStore := k; cl := {| token := ""; server := s |}; config := c; rotateCache := ∅ |}.

Definition double_world (k : MemKV) (s : FakeVault) (c : Config) : World (X := unit) :=
  {| self := double_vault k s c; extConfig := tt; trace := [] |}.

Definition empty_store : MemKV := {| kv_data := ∅; kv_broken := ∅ |}.

(** A server that was never initialized. *)
Definition fresh_server : FakeVault :=
  {| fv_initialized := false; fv_sealed := true; fv_progress := 0; fv_threshold := 0;
     fv_keys := []; fv_tokens := []; fv_unreachable := 0; fv_unsealed_after := None;
     fv_auth := ∅; fv_audit := ∅; fv_plugins := []; fv_groups := ∅; fv_aliases := [];
     fv_logical := ∅ |}.

(** A store that has every share, and a server that answers every unseal
    request "sealed, progress 1" and serves nothing else. *)
Inductive EveryShare := every_share.

#[export] Instance EveryShare_service : KVService EveryShare := {|
  Get key k := (k, Ok "share");
  Set_ key val k := (k, None);
|}.

Inductive StaysSealed := stays_sealed.

#[export] Instance StaysSealed_api : AdminAPI StaysSealed := λ tok q,
  match q return StaysSealed → StaysSealed * result (api.Response q) with
  | api.SysUnseal _ => λ s, (s, Ok {| api.Sealed := true; api.Progress := 1 |})
  | api.SysSealStatus => λ s, (s, Ok {| api.Sealed := true; api.Progress := 1 |})
  | _ => λ s, (s, Err (ErrNew "not served"))
  end.

Definition sealed_forever : World (X := unit) :=
  {| self := {| keyStore := every_share; cl := {| token := ""; server := stays_sealed |};
                config := {| SecretShares := 1; SecretThreshold := 1; InitRootToken := "";
                             StoreRootToken := false; PreFlightChecks := false |};
                rotateCache := ∅ |};
     extConfig := tt; trace := [] |}.

(** The plainest key store, a map, and a vault on it. *)
#[export] Instance map_service : KVService (gmap string bytes) := {|
  Get key m :=
    (m, match m !! key with
        | Some val => Ok val
        | None => Err (ErrStore true ("key '" +:+ key +:+ "' is not present"))
        end);
  Set_ key val m := (<[key := val]> m, None);
|}.

Definition map_world (m : gmap string bytes) (s : FakeVault) (c : Config)
  : World (K := gmap string bytes) (X := unit) :=
  {| self := {| keyStore := m; cl := {| token := ""; server := s |}; config := c;
                rotateCache := ∅ |};
     extConfig := tt; trace := [] |}.

(** *** Scenarios on the doubles *)

Definition make_config (shares threshold : Z) (fixed : string) (store preflight : bool)
  : Config :=
  {| SecretShares := shares; SecretThreshold := threshold; InitRootToken := fixed;
     StoreRootToken := store; PreFlightChecks := preflight |}.

(** Two shares, both needed; the root token is stored, the store probed. *)
Definition two_shares : Config := make_config 2 2 "" true true.

(** The world after [Init] has initialized the fresh server. *)
Definition initialized_world : World (X := unit) :=
  fst (Init 0 (double_world empty_store fresh_server two_shares)).

(** A store whose root-token key cannot be read: the store answers with an
    error that is not not-found. *)
Definition root_unreadable : MemKV := {| kv_data := ∅; kv_broken := {[ rootTokenKey ]} |}.

(** A store that holds an older value under the probe's key. *)
Definition probed_before : MemKV := {| kv_data := {[ testKey := "old" ]}; kv_broken := ∅ |}.

(** A server that is unsealed and knows the root token [s.root], two auth
    mounts, the group [admins], and the alias [svc] of the first mount. *)
Definition k8s_accessor : string := "auth_kubernetes_1".
Definition ldap_accessor : string := "auth_ldap_2".

Definition svc_on_k8s : GroupAlias :=
  {| ga_id := "alias-0"; ga_name := "svc"; ga_mount := k8s_accessor;
     ga_canonical := "group-admins" |}.

Definition svc_on_ldap : GroupAlias :=
  {| ga_id := "alias-1"; ga_name := "svc"; ga_mount := ldap_accessor;
     ga_canonical := "group-admins" |}.

Definition running_server (aliases : list GroupAlias) : FakeVault :=
  {| fv_initialized := true; fv_sealed := false; fv_progress := 0; fv_threshold := 1;
     fv_keys := ["share-0"]; fv_tokens := ["s.root"]; fv_unreachable := 0;
     fv_unsealed_after := None;
     fv_auth := {[ "kubernetes/" := {| api.Accessor := k8s_accessor |};
                   "ldap/" := {| api.Accessor := ldap_accessor |} ]};
     fv_audit := ∅; fv_plugins := [];
     fv_groups := {[ "admins" := "group-admins" ]};
     fv_aliases := aliases; fv_logical := ∅ |}.

Definition root_stored : MemKV := {| kv_data := {[ rootTokenKey := "s.root" ]}; kv_broken := ∅ |}.

(** The world of a client that authenticates with [s.root]. *)
Definition authenticated_world (aliases : list GroupAlias) : World (X := unit) :=
  set_token "s.root" (double_world root_stored (running_server aliases) two_shares).

Definition desired_alias (name mountpath group : string) : gmap string value :=
  {[ "name" := VString name; "mountpath" := VString mountpath; "group" := VString group ]}.

(** A plugin record whose command is the empty string. *)
Definition plugin_without_command : gmap string value :=
  {[ "command" := VString ""; "plugin_name" := VString "my-plugin";
     "sha256" := VString "0a1b2c"; "type" := VString "secret" ]}.

Definition plugins_document : gmap string value :=
  {[ "plugins" := VList [VMap plugin_without_command] ]}.

(** A document with one group and the alias [svc] on both mounts, and one
    whose group is of a type that is not supported. *)
Definition aliases_document : gmap string value :=
  {[ "groups" := VList [VMap {[ "name" := VString "admins"; "type" := VString "external" ]}];
     "group-aliases" :=
       VList [VMap (desired_alias "svc" "kubernetes" "admins");
              VMap (desired_alias "svc" "ldap/" "admins")] ]}.

Definition internal_group_document : gmap string value :=
  {[ "groups" := VList [VMap {[ "name" := VString "team"; "type" := VString "internal" ]}] ]}.

(** [Configure] on the doubles: the auth reconciler of the other file
    lists the auth mounts, the other two do nothing; no Kubernetes. *)
Definition list_auth_mounts : M (K := MemKV) (V := FakeVault) (X := unit) unit :=
  cl_request api.SysListAuth ≫= λ _, mret tt.

Definition double_Configure (config : gmap string value)
  : M (K := MemKV) (V := FakeVault) (X := unit) unit :=
  Configure (λ _, "") list_auth_mounts (mret tt) (mret tt)
    sdk_ParsePluginType decode_audit (Some tt) None
    (λ _ _, Err (ErrNew "no such secret")) config.

(** The worlds of [Unseal] after the first and after the second share. *)
Definition first_share_sent : World (X := unit) :=
  fst (cl_request (api.SysUnseal "share-0")
         (fst (keyStore_Get (unsealKeyForID 0) initialized_world))).

Definition second_share_sent : World (X := unit) :=
  fst (cl_request (api.SysUnseal "share-1")
         (fst (keyStore_Get (unsealKeyForID 1) first_share_sent))).

(** The payload of the write for the alias [svc] of the group [admins]. *)
Definition svc_config (accessor : string) : gmap string value :=
  {[ "name" := VString "svc"; "mount_accessor" := VString accessor;
     "canonical_id" := VString "group-admins" ]}.

(** * The vocabulary of the properties *)

(** ** Unseal: the rounds of a run

    [progressing i n w w'] : from [w], the [n] rounds of [Unseal] that start
    at index [i] each fetch their share and get the answer "sealed, with
    progress other than 0", and leave the world [w']. [round_index n i] is
    the index the next round has. *)

Fixpoint round_index (n : nat) (i : Z) : Z :=
  match n with
  | O => i
  | S n' => round_index n' (int_incr i)
  end.

Inductive progressing {K V X : Type} `{!KVService K} `{!AdminAPI V}
  : Z → nat → World (K:=K) (V:=V) (X:=X) → World (K:=K) (V:=V) (X:=X) → Prop :=
  | progressing_done i w : progressing i O w w
  | progressing_round i n w w1 w2 w' key resp :
      keyStore_Get (unsealKeyForID i) w = (w1, Ret (Ok key)) →
      cl_request (api.SysUnseal key) w1 = (w2, Ret (Ok resp)) →
      api.Sealed resp = true →
      api.Progress resp ≠ 0 →
      progressing (int_incr i) n w2 w' →
      progressing i (S n) w w'.

(** ** What a run appends to the trace

    [emits I P m]: started in a world where [I] holds, [m] ends in a world
    where [I] holds, and the events it has appended to the trace satisfy
    [P]. [P] is a property of stretches of events that the empty stretch
    has and that two stretches in a row keep ([TraceProp]). *)

Class TraceProp (P : list Event → Prop) := {
  trace_prop_nil : P [];
  trace_prop_app : ∀ a b, P a → P b → P (a ++ b);
}.

Definition emits {K V X A : Type} (I : World (K:=K) (V:=V) (X:=X) → Prop)
    (P : list Event → Prop) (m : M A) : Prop :=
  ∀ w, I w → I (fst (m w)) ∧ ∃ evs, trace (fst (m w)) = trace w ++ evs ∧ P evs.

(** ** Writes to the key store *)

(** [guards key prev]: the event just before is a [Get] of [key] that
    reported not-found. *)
Definition guards (key : string) (prev : option Event) : bool :=
  match prev with
  | Some (EvGet k (Err err)) => bool_decide (k = key) && isNotFoundError err
  | _ => false
  end.

(** Every [Set] of the stretch, the keys in [exempt] apart, comes right
    after a [Get] of its key that reported not-found. *)
Fixpoint sets_guarded (exempt : string → bool) (prev : option Event) (evs : list Event) : bool :=
  match evs with
  | [] => true
  | e :: evs' =>
      match e with
      | EvSet key _ _ => exempt key || guards key prev
      | _ => true
      end && sets_guarded exempt (Some e) evs'
  end.

Definition guarded (exempt : string → bool) (evs : list Event) : Prop :=
  sets_guarded exempt None evs = true.

(** The probe's key is exempt when the pre-flight check is on. *)
Definition probe_key (cfg : Config) (key : string) : bool :=
  PreFlightChecks cfg && bool_decide (key = testKey).

(** The world's vault has the configuration [cfg]. *)
Definition configured {K V X : Type} (cfg : Config) (w : World (K:=K) (V:=V) (X:=X)) : Prop :=
  config (self w) = cfg.

(** ** Plugins *)

(** The error of [getOrError] for a field that is not set. *)
Definition not_set_error (key : string) : error :=
  ErrNew ("value for " +:+ key +:+ " is not set").

(** The registration of one plugin, once its fields are read: the end of
    the loop body of [configurePlugins]. *)
Definition register {K V X : Type} `{!AdminAPI V} (input : api.RegisterPluginInput)
  : M (K:=K) (V:=V) (X:=X) unit :=
  r ← cl_request (api.SysRegisterPlugin input);
  match r with
  | Err err => fail (ErrWrap err ("error registering plugin " +:+ api.Name input +:+ " in vault"))
  | Ok _ => mret tt
  end.

(** ** The client's token *)

(** An event of a stretch during which the client's token is [tok]: a
    request is sent under [tok], and the token is not set. *)
Definition under_token (tok : string) (e : Event) : Prop :=
  match e with
  | EvRequest t _ => t = tok
  | EvSetToken _ => False
  | _ => True
  end.

Definition has_token {K V X : Type} (tok : string) (w : World (K:=K) (V:=V) (X:=X)) : Prop :=
  token (cl (self w)) = tok.

(** [scoped m]: whatever token the client has when [m] starts, [m] sends
    its requests under it and leaves it in place. *)
Definition scoped {K V X A : Type} (m : M (K:=K) (V:=V) (X:=X) A) : Prop :=
  ∀ tok, emits (has_token tok) (Forall (under_token tok)) m.

(** ** Group aliases *)

Definition add_events {K V X : Type} (evs : list Event) (w : World (K:=K) (V:=V) (X:=X))
  : World (K:=K) (V:=V) (X:=X) :=
  {| self := self w; extConfig := extConfig w; trace := trace w ++ evs |}.

(** A request that reads the identity store or the auth mounts. *)
Definition is_read (tok : string) (e : Event) : Prop :=
  match e with
  | EvRequest t (api.LogicalRead _ | api.LogicalList _ | api.SysListAuth) => t = tok
  | _ => False
  end.

(** The first of the aliases, in the order the server lists them, whose
    name and mount accessor are both the wanted ones. *)
Fixpoint matching_alias (name accessor : string) (aliases : list GroupAlias)
  : option GroupAlias :=
  match aliases with
  | [] => None
  | a :: aliases' =>
      if bool_decide (ga_name a = name ∧ ga_mount a = accessor) then Some a
      else matching_alias name accessor aliases'
  end.

(** What the server, in state [s] and asked under [tok], tells about its
    group aliases: reading alias [a] by its id gives a secret with its
    name and its mount accessor, and listing the aliases gives their ids
    (no secret at all when there is none); both leave the server as it
    is. *)
Definition alias_known {V : Type} `{!AdminAPI V} (tok : string) (s : V) (a : GroupAlias) : Prop :=
  ∃ sec,
    serve tok (api.LogicalRead ("identity/group-alias/id/" +:+ ga_id a)) s = (s, Ok (Some sec))
    ∧ index (api.Data sec) "name" = VString (ga_name a)
    ∧ index (api.Data sec) "mount_accessor" = VString (ga_mount a).

Definition aliases_listed {V : Type} `{!AdminAPI V} (tok : string) (s : V)
    (aliases : list GroupAlias) : Prop :=
  (aliases = [] ∧ serve tok (api.LogicalList "identity/group-alias/id") s = (s, Ok None))
  ∨ ∃ sec,
      serve tok (api.LogicalList "identity/group-alias/id") s = (s, Ok (Some sec))
      ∧ index (api.Data sec) "keys" = VList ((λ a, VString (ga_id a)) <$> aliases).

(** The two writes [configureGroupAlias] chooses between. *)
Definition create_alias {K V X : Type} `{!AdminAPI V} (groupAlias config : gmap string value)
  : M (K:=K) (V:=V) (X:=X) unit :=
  wrapping ("failed to create group-alias " +:+ fmt_s (index groupAlias "name"))
           (writeWithWarningCheck "identity/group-alias" config);;
  mret tt.

Definition tune_alias {K V X : Type} `{!AdminAPI V} (ga : string) (config : gmap string value)
  : M (K:=K) (V:=V) (X:=X) unit :=
  wrapping ("failed to tune group-alias " +:+ ga)
           (writeWithWarningCheck ("identity/group-alias/id/" +:+ ga) config);;
  mret tt.

(** ** The rest of the client *)

(** [strings.Contains] *)
Fixpoint strings_Contains (s substr : string) : bool :=
  strings.HasPrefix s substr
  || match s with
     | String _ s' => strings_Contains s' substr
     | EmptyString => false
     end.

Definition isOverwriteProhibitedError (err : error) : bool :=
  strings_Contains (Error err) "delete them before reconfiguring".

(** An event of [Unseal] under the token [tok]: the fetch of an unseal
    key, or an unseal request. *)
Definition is_unseal_step (tok : string) (e : Event) : Prop :=
  match e with
  | EvGet key _ => ∃ i, key = unsealKeyForID i
  | EvRequest t (api.SysUnseal _) => t = tok
  | _ => False
  end.

(** The file [RaftJoin] reads the CA certificate of the leader from: the
    one [VAULT_RAFT_CACERT] names, or else the one [VAULT_CACERT] names. *)
Definition raft_cacert_file (Getenv : string → string) : string :=
  if bool_decide (Getenv "VAULT_RAFT_CACERT" = "") then Getenv EnvVaultCACert
  else Getenv "VAULT_RAFT_CACERT".

(** Two environments, one of which sets a [VAULT_CACERT] that the other
    does not, and a file system with one certificate. *)
Definition raft_env (name : string) : string :=
  if bool_decide (name = "POD_NAME") then "vault-1"
  else if bool_decide (name = "VAULT_RAFT_CACERT") then "/raft/ca.crt"
  else "".

Definition raft_env_with_cacert (name : string) : string :=
  if bool_decide (name = "VAULT_CACERT") then "/vault/ca.crt" else raft_env name.

Definition one_certificate (file : string) : result bytes :=
  if bool_decide (file = "/raft/ca.crt") then Ok "-----BEGIN CERTIFICATE-----"
  else Err (ErrNew "no such file").

(** The keys [Init] tests before it asks the server to initialize: the
    root token's, and the unseal keys of the indices 0 to [SecretShares],
    both included. *)
Definition init_keys (cfg : Config) : list string :=
  [rootTokenKey] ++ (unsealKeyForID <$> seqZ 0 (SecretShares cfg + 1)).

(** An event of the checks of [Init]: a read of the key store, or the
    request for the init status. *)
Definition is_init_check (tok : string) (e : Event) : Prop :=
  match e with
  | EvGet _ _ => True
  | EvRequest t api.SysInitStatus => t = tok
  | _ => False
  end.

(** A store that holds the unseal key of index 2 and nothing else. *)
Definition stray_unseal_key : MemKV :=
  {| kv_data := {[ unsealKeyForID 2 := "left behind" ]}; kv_broken := ∅ |}.

(** A key store that behaves as a map: [content k] is what the store [k]
    holds. A read leaves the store as it is and answers with the value of
    the key, or with a not-found error; a write succeeds and puts the
    value under the key. *)
Definition store_reads {K : Type} `{!KVService K} (content : K → gmap string bytes) : Prop :=
  ∀ key k,
    fst (Get key k) = k
    ∧ match content k !! key, snd (Get key k) with
      | Some v, Ok v' => v = v'
      | None, Err e => isNotFoundError e = true
      | _, _ => False
      end.

Definition store_writes {K : Type} `{!KVService K} (content : K → gmap string bytes) : Prop :=
  ∀ key val k,
    snd (Set_ key val k) = None
    ∧ content (fst (Set_ key val k)) = <[key := val]> (content k).

(** The store holds no unseal key, no recovery key and no root token. *)
Definition no_client_keys (m : gmap string bytes) : Prop :=
  (∀ i, m !! unsealKeyForID i = None)
  ∧ (∀ i, m !! recoveryKeyForID i = None)
  ∧ m !! rootTokenKey = None.

(** The init request [Init] sends. *)
Definition init_request (cfg : Config) : api.Request :=
  api.SysInit {|
    api.SecretShares := SecretShares cfg;
    api.SecretThreshold := SecretThreshold cfg;
    api.RecoveryShares := SecretShares cfg;
    api.RecoveryThreshold := SecretThreshold cfg |}.

(** The path [configureAuditDevices] mounts a device at: its [path]
    without the slashes at its two ends, or else its type. *)
Definition audit_path (auditDevice : gmap string value) : option string :=
  match cast.ToStringE (index auditDevice "type"), auditDevice !! "path" with
  | Ok auditDeviceType, None => Some auditDeviceType
  | Ok _, Some pathOverwrite =>
      match cast.ToStringE pathOverwrite with
      | Ok path => Some (strings.Trim path "/")
      | Err _ => None
      end
  | Err _, _ => None
  end.

(** A server with two audit devices, and a document that asks for them. *)
Definition file_audit : api.EnableAuditOptions :=
  {| api.AuditType := "file"; api.Description := ""; api.Options := ∅; api.Local_ := false |}.

Definition audited_world : World (X := unit) :=
  {| self := {| keyStore := empty_store;
                cl := {| token := "s.root";
                         server := fv_with_mounts {[ "file/" := file_audit; "audit/" := file_audit ]}
                                     [] (running_server []) |};
                config := two_shares; rotateCache := ∅ |};
     extConfig := tt; trace := [] |}.

Definition audit_document : gmap string value :=
  {[ "audit" := VList [VMap {[ "type" := VString "file" ]};
                       VMap {[ "type" := VString "file"; "path" := VString "/audit/" ]}] ]}.

(** Two documents with one startup secret: one of a type that is not
    supported, and a pki secret with a certificate and no key. *)
Definition transit_secret_document : gmap string value :=
  {[ "startupSecrets" :=
       VList [VMap {[ "type" := VString "transit"; "path" := VString "transit/keys/app" ]}] ]}.

Definition certificate_only : gmap string value :=
  {[ "certificate" := VString "-----BEGIN CERTIFICATE-----" ]}.

Definition incomplete_pki_secret : gmap string value :=
  {[ "type" := VString "pki"; "path" := VString "pki/config/ca";
     "data" := VMap {[ "data" := VMap certificate_only ]} ]}.

Definition incomplete_pki_document : gmap string value :=
  {[ "startupSecrets" := VList [VMap incomplete_pki_secret] ]}.

(** The startup secrets on the doubles: no Kubernetes secret is there. *)
Definition double_configureStartupSecrets (config : gmap string value)
  : M (K := MemKV) (V := FakeVault) (X := unit) unit :=
  configureStartupSecrets (λ _, "") (Some tt) None (λ _ _, Err (ErrNew "no such secret"))
    config.

(** The calls of the four reconcilers of this file, under the token
    [tok]: the plugin catalog, the audit devices, writes of secrets, and
    the identity store with the list of the auth mounts. *)
Definition plugin_step (tok : string) (e : Event) : Prop :=
  match e with
  | EvRequest t (api.SysListPlugins | api.SysRegisterPlugin _) => t = tok
  | _ => False
  end.

Definition audit_step (tok : string) (e : Event) : Prop :=
  match e with
  | EvRequest t (api.SysListAudit | api.SysEnableAuditWithOptions _ _) => t = tok
  | _ => False
  end.

Definition secret_step (tok : string) (e : Event) : Prop :=
  match e with
  | EvRequest t (api.LogicalWrite _ _) => t = tok
  | _ => False
  end.

Definition identity_step (tok : string) (e : Event) : Prop :=
  match e with
  | EvRequest t api.SysListAuth => t = tok
  | EvRequest t (api.LogicalRead path | api.LogicalList path | api.LogicalWrite path _) =>
      t = tok ∧ strings.HasPrefix path "identity/" = true
  | _ => False
  end.

(** From [w], the run of [m] leaves the client's token as it is, and every
    call it makes is a [step] under that token. *)
Definition keeps_to {K V X A : Type} (step : string → Event → Prop)
    (m : M (K:=K) (V:=V) (X:=X) A) (w : World (K:=K) (V:=V) (X:=X)) : Prop :=
  token (cl (self (fst (m w)))) = token (cl (self w))
  ∧ ∃ evs, trace (fst (m w)) = trace w ++ evs
           ∧ Forall (step (token (cl (self w)))) evs.

(** * Properties *)

(** ** Construction *)

Section construction.

Context {K V : Type}.

Lemma New_ok (k : K) (cl : Client (V:=V)) (config : Config) :
  SecretThreshold config ≤ SecretShares config →
  New k cl config = Ok {| keyStore := k; cl := cl; config := config; rotateCache := ∅ |}.
Proof.
  intros Hle. unfold New.
  destruct (Z.ltb_spec (SecretShares config) (SecretThreshold config)); [lia | reflexivity].
Qed.

Lemma New_err (k : K) (cl : Client (V:=V)) (config : Config) :
  SecretShares config < SecretThreshold config →
  New k cl config = Err (threshold_error config).
Proof.
  intros Hlt. unfold New.
  destruct (Z.ltb_spec (SecretShares config) (SecretThreshold config)); [reflexivity | lia].
Qed.

(** C5, as the code has it: [New] compares the threshold with the shares
    and nothing else. Whenever the threshold is at most the shares, a
    threshold of zero or below included, [New] returns the vault built from
    its arguments; whenever the threshold is above the shares it returns
    the configuration error that names both numbers. *)
Theorem New_checks_threshold_against_shares (k : K) (cl : Client (V:=V)) (config : Config) :
  (SecretThreshold config ≤ SecretShares config ↔
     New k cl config
     = Ok {| keyStore := k; cl := cl; config := config; rotateCache := ∅ |})
  ∧ (SecretShares config < SecretThreshold config ↔
     New k cl config = Err (threshold_error config)).
Proof.
  split; split.
  - apply New_ok.
  - intros Hok. destruct (Z.lt_ge_cases (SecretShares config) (SecretThreshold config)) as [Hlt|Hge].
    + rewrite (New_err _ _ _ Hlt) in Hok. discriminate.
    + lia.
  - apply New_err.
  - intros Herr. destruct (Z.lt_ge_cases (SecretShares config) (SecretThreshold config)) as [Hlt|Hge].
    + exact Hlt.
    + rewrite New_ok in Herr by lia. discriminate.
Qed.

End construction.

(** C5, as the claim has it, fails: a threshold of 0 is below 1, and [New]
    builds the vault all the same. *)
Lemma New_accepts_threshold_below_one :
  let config := {| SecretShares := 1; SecretThreshold := 0; InitRootToken := "";
                   StoreRootToken := false; PreFlightChecks := false |} in
  SecretThreshold config < 1
  ∧ New empty_store {| token := ""; server := fresh_server |} config
    = Ok (double_vault empty_store fresh_server config).
Proof. split; [reflexivity | reflexivity]. Qed.

(** ** Running the monad *)

Section running.

Context {K V X : Type} `{!KVService K} `{!AdminAPI V}.

#[local] Abbreviation World := (World (K:=K) (V:=V) (X:=X)).
#[local] Abbreviation M := (M (K:=K) (V:=V) (X:=X)).

Lemma bind_ret {A B} (m : M A) (f : A → M B) (w w' : World) a :
  m w = (w', Ret a) → (m ≫= f) w = f a w'.
Proof. intros Hm. unfold mbind, M_bind. rewrite Hm. reflexivity. Qed.

Lemma keyStore_Get_eq key (w : World) :
  keyStore_Get key w
  = (add_event (EvGet key (snd (Get key (keyStore (self w)))))
       (set_keyStore (fst (Get key (keyStore (self w)))) w),
     Ret (snd (Get key (keyStore (self w))))).
Proof. unfold keyStore_Get. destruct (Get key (keyStore (self w))). reflexivity. Qed.

Lemma keyStore_Set_eq key val (w : World) :
  keyStore_Set key val w
  = (add_event (EvSet key val (snd (Set_ key val (keyStore (self w)))))
       (set_keyStore (fst (Set_ key val (keyStore (self w)))) w),
     Ret (snd (Set_ key val (keyStore (self w))))).
Proof. unfold keyStore_Set. destruct (Set_ key val (keyStore (self w))). reflexivity. Qed.

Lemma cl_request_eq q (w : World) :
  cl_request q w
  = (add_event (EvRequest (token (cl (self w))) q)
       (set_server (fst (serve (token (cl (self w))) q (server (cl (self w))))) w),
     Ret (snd (serve (token (cl (self w))) q (server (cl (self w)))))).
Proof.
  unfold cl_request.
  destruct (serve (token (cl (self w))) q (server (cl (self w)))). reflexivity.
Qed.

(** The answer of a request is what [cl_request] returns. *)
Lemma cl_request_returns q (w w' : World) r :
  cl_request q w = (w', Ret r) →
  serve (token (cl (self w))) q (server (cl (self w))) = (server (cl (self w')), r)
  ∧ trace w' = trace w ++ [EvRequest (token (cl (self w))) q]
  ∧ keyStore (self w') = keyStore (self w)
  ∧ token (cl (self w')) = token (cl (self w)).
Proof.
  rewrite cl_request_eq. intros [= <- <-]. simpl.
  destruct (serve (token (cl (self w))) q (server (cl (self w)))); auto.
Qed.

End running.

(** ** Unseal *)

Section unseal.

Context {K V X : Type} `{!KVService K} `{!AdminAPI V}.

#[local] Abbreviation World := (World (K:=K) (V:=V) (X:=X)).

(** One round that fetches its share and is told "sealed, in progress"
    goes on with the next index. *)
Lemma Unseal_from_continue fuel i (w w1 w2 : World) key resp :
  keyStore_Get (unsealKeyForID i) w = (w1, Ret (Ok key)) →
  cl_request (api.SysUnseal key) w1 = (w2, Ret (Ok resp)) →
  api.Sealed resp = true →
  api.Progress resp ≠ 0 →
  Unseal_from (S fuel) i w = Unseal_from fuel (int_incr i) w2.
Proof.
  intros Hget Hreq Hsealed Hprog. simpl.
  rewrite (bind_ret _ _ _ _ _ Hget). rewrite (bind_ret _ _ _ _ _ Hreq).
  rewrite Hsealed. simpl.
  destruct (Z.eqb_spec (api.Progress resp) 0); [contradiction | reflexivity].
Qed.

Lemma Unseal_from_progressing i n (w w' : World) :
  progressing i n w w' →
  ∀ fuel, Unseal_from (n + fuel) i w = Unseal_from fuel (round_index n i) w'.
Proof.
  induction 1 as [i w | i n w w1 w2 w' key resp Hget Hreq Hsealed Hprog _ IH]; intros fuel.
  - reflexivity.
  - simpl Nat.add. rewrite (Unseal_from_continue _ _ _ _ _ _ _ Hget Hreq Hsealed Hprog).
    apply IH.
Qed.

Lemma progressing_app i n m (w w' w'' : World) :
  progressing i n w w' →
  progressing (round_index n i) m w' w'' →
  progressing i (n + m) w w''.
Proof.
  induction 1 as [i w | i n w w1 w2 w' key resp Hget Hreq Hsealed Hprog _ IH]; intros Hm.
  - exact Hm.
  - simpl. eapply progressing_round; eauto.
Qed.

(** The rounds count 0, 1, 2, ... for as long as an [int] can. *)
Lemma round_index_from (n : nat) (i : Z) :
  int_min ≤ i → i + Z.of_nat n ≤ int_max → round_index n i = i + Z.of_nat n.
Proof.
  revert i. induction n as [|n IH]; intros i Hlo Hhi; simpl.
  - lia.
  - assert (int_incr i = i + 1) as ->.
    { unfold int_incr, int_wrap, int_min, int_max in *.
      rewrite Z.mod_small by lia. lia. }
    rewrite IH; unfold int_min, int_max in *; lia.
Qed.

Lemma round_index_0 (n : nat) :
  Z.of_nat n ≤ int_max → round_index n 0 = Z.of_nat n.
Proof.
  intros Hn. rewrite round_index_from; unfold int_min, int_max in *; lia.
Qed.

(** C2. Let the rounds 0 .. n-1 of [Unseal] each fetch their share and be
    answered "sealed, with progress other than 0" ([progressing]); there is
    no bound on [n]. Then [Unseal], followed for more than [n] rounds, is
    decided by round [n], whose index is [round_index n 0] (that is [n]):
    - the share cannot be fetched: [Unseal] returns that error, wrapped,
      and has sent nothing more to the server;
    - the unseal request fails: the error is returned, wrapped;
    - the answer is "not sealed": [Unseal] returns nil at once;
    - the answer is "sealed" with progress 0: [Unseal] returns the bad-key
      error, in the world the answer left, so no further share is fetched;
    and an answer "sealed" with another progress extends the run of
    progressing rounds by one: the next index is tried. *)
Theorem Unseal_rounds (n fuel : nat) (w wn : World) :
  progressing 0 n w wn →
  (n < fuel)%nat →
  let i := round_index n 0 in
  (Z.of_nat n ≤ int_max → i = Z.of_nat n)
  ∧ (∀ w1 err,
       keyStore_Get (unsealKeyForID i) wn = (w1, Ret (Err err)) →
       Unseal fuel w
       = (w1, Fail (ErrWrap err ("unable to get key '" +:+ unsealKeyForID i +:+ "'"))))
  ∧ (∀ w1 w2 key,
       keyStore_Get (unsealKeyForID i) wn = (w1, Ret (Ok key)) →
       (∀ err,
          cl_request (api.SysUnseal key) w1 = (w2, Ret (Err err)) →
          Unseal fuel w = (w2, Fail (ErrWrap err "fail to send unseal request to vault")))
       ∧ (∀ resp,
          cl_request (api.SysUnseal key) w1 = (w2, Ret (Ok resp)) →
          (api.Sealed resp = false → Unseal fuel w = (w2, Ret tt))
          ∧ (api.Sealed resp = true → api.Progress resp = 0 →
             Unseal fuel w = (w2, Fail bad_key_error))
          ∧ (api.Sealed resp = true → api.Progress resp ≠ 0 →
             progressing 0 (S n) w w2
             ∧ Unseal (S fuel) w = Unseal_from (fuel - n) (int_incr i) w2))).
Proof.
  intros Hrounds Hfuel i.
  assert (∃ f, fuel = (n + S f)%nat) as [f ->] by (exists (fuel - S n)%nat; lia).
  unfold Unseal. rewrite (Unseal_from_progressing _ _ _ _ Hrounds). fold i.
  split; [apply round_index_0 |].
  split.
  { intros w1 err Hget. simpl. rewrite (bind_ret _ _ _ _ _ Hget). reflexivity. }
  intros w1 w2 key Hget. split.
  { intros err Hreq. simpl.
    rewrite (bind_ret _ _ _ _ _ Hget). rewrite (bind_ret _ _ _ _ _ Hreq). reflexivity. }
  intros resp Hreq. split; [| split].
  - intros Hsealed. simpl.
    rewrite (bind_ret _ _ _ _ _ Hget). rewrite (bind_ret _ _ _ _ _ Hreq).
    rewrite Hsealed. reflexivity.
  - intros Hsealed Hprog. simpl.
    rewrite (bind_ret _ _ _ _ _ Hget). rewrite (bind_ret _ _ _ _ _ Hreq).
    rewrite Hsealed, Hprog. reflexivity.
  - intros Hsealed Hprog.
    assert (progressing i 1 wn w2) as Hlast.
    { eapply progressing_round; eauto. constructor. }
    split.
    + replace (S n) with (n + 1)%nat by lia. eapply progressing_app; eauto.
    + replace (S (n + S f)) with (n + S (S f))%nat by lia.
      rewrite (Unseal_from_progressing _ _ _ _ Hrounds). fold i.
      rewrite (Unseal_from_continue _ _ _ _ _ _ _ Hget Hreq Hsealed Hprog).
      f_equal. lia.
Qed.

End unseal.

(** Nothing in [Unseal] ends the rounds: with a store that has every share
    and a server that stays sealed, [Unseal] is still at it after [n]
    rounds, whatever [n]. *)
Lemma progressing_while_sealed (n : nat) (i : Z)
    (w : World (K := EveryShare) (V := StaysSealed) (X := unit)) :
  ∃ wn, progressing i n w wn.
Proof.
  revert i w. induction n as [|n IH]; intros i w.
  - exists w. constructor.
  - destruct (IH (int_incr i)
                (fst (cl_request (api.SysUnseal "share")
                        (fst (keyStore_Get (unsealKeyForID i) w))))) as [wn Hn].
    exists wn.
    eapply progressing_round with (key := "share")
      (resp := {| api.Sealed := true; api.Progress := 1 |});
      [reflexivity | reflexivity | reflexivity | discriminate | exact Hn].
Qed.

Lemma Unseal_never_gives_up (n : nat) :
  ∃ wn, progressing 0 n sealed_forever wn ∧ Unseal n sealed_forever = (wn, NoReturn).
Proof.
  destruct (progressing_while_sealed n 0 sealed_forever) as [wn Hn].
  exists wn. split; [exact Hn |].
  unfold Unseal. rewrite <- (Nat.add_0_r n) at 1.
  rewrite (Unseal_from_progressing _ _ _ _ Hn). reflexivity.
Qed.

(** ** Init against a server that is initialized *)

Section init_guard.

Context {K V X : Type} `{!KVService K} `{!AdminAPI V}.

#[local] Abbreviation World := (World (K:=K) (V:=V) (X:=X)).

Lemma Init_initialized_eq (fuel : nat) (w : World) s' :
  serve (token (cl (self w))) api.SysInitStatus (server (cl (self w))) = (s', Ok true) →
  Init fuel w
  = (add_event (EvRequest (token (cl (self w))) api.SysInitStatus) (set_server s' w), Ret tt).
Proof.
  intros Hserve. unfold Init.
  erewrite bind_ret; [| rewrite cl_request_eq, Hserve; reflexivity].
  reflexivity.
Qed.

(** C6. When the server answers the init-status request with "initialized",
    [Init] returns nil; the only call it has made is that request, so it
    has read nothing from and written nothing to the key store, which is
    the one it started with, and it has not sent the init request. A second
    [Init] against the server still initialized is the same no-op: the key
    store is still the one before the first call. *)
Theorem Init_already_initialized (fuel : nat) (w : World) s' :
  serve (token (cl (self w))) api.SysInitStatus (server (cl (self w))) = (s', Ok true) →
  let w' := fst (Init fuel w) in
  snd (Init fuel w) = Ret tt
  ∧ trace w' = trace w ++ [EvRequest (token (cl (self w))) api.SysInitStatus]
  ∧ keyStore (self w') = keyStore (self w)
  ∧ server (cl (self w')) = s'
  ∧ (∀ fuel2 s'',
       serve (token (cl (self w))) api.SysInitStatus s' = (s'', Ok true) →
       snd (Init fuel2 w') = Ret tt
       ∧ trace (fst (Init fuel2 w'))
         = trace w ++ [EvRequest (token (cl (self w))) api.SysInitStatus;
                       EvRequest (token (cl (self w))) api.SysInitStatus]
       ∧ keyStore (self (fst (Init fuel2 w'))) = keyStore (self w)).
Proof.
  intros Hserve w'. subst w'. rewrite (Init_initialized_eq _ _ _ Hserve). simpl.
  do 4 (split; [reflexivity |]).
  intros fuel2 s'' Hagain.
  rewrite Init_initialized_eq with (s' := s'') by exact Hagain. simpl.
  split; [reflexivity |]. split; [| reflexivity].
  rewrite <- app_assoc. reflexivity.
Qed.

End init_guard.

(** ** What a run appends to the trace *)

Section emits.

Context {K V X : Type} `{!KVService K} `{!AdminAPI V}.
Context (I : World (K:=K) (V:=V) (X:=X) → Prop) (P : list Event → Prop) `{!TraceProp P}.

#[local] Abbreviation M := (M (K:=K) (V:=V) (X:=X)).

Lemma emits_pure {A} (o : outcome A) : emits I P (λ w, (w, o)).
Proof.
  intros w HI. simpl. split; [exact HI |].
  exists []. split; [by rewrite app_nil_r | apply trace_prop_nil].
Qed.

Lemma emits_ret {A} (a : A) : emits I P (mret a : M A).
Proof. apply emits_pure. Qed.

Lemma emits_fail {A} e : emits I P (fail e : M A).
Proof. apply emits_pure. Qed.

Lemma emits_panic {A} msg : emits I P (panic msg : M A).
Proof. apply emits_pure. Qed.

Lemma emits_no_return {A} : emits I P (no_return : M A).
Proof. apply emits_pure. Qed.

Lemma emits_bind {A B} (m : M A) (f : A → M B) :
  emits I P m → (∀ a, emits I P (f a)) → emits I P (m ≫= f).
Proof.
  intros Hm Hf w HI. destruct (Hm w HI) as (HI' & evs & Htr & HP).
  unfold mbind, M_bind. destruct (m w) as [w' [a|e|msg|]]; simpl in *.
  - destruct (Hf a w' HI') as (HI'' & evs' & Htr' & HP').
    split; [exact HI'' |]. exists (evs ++ evs').
    split; [rewrite Htr', Htr, app_assoc; reflexivity | by apply trace_prop_app].
  - eauto.
  - eauto.
  - eauto.
Qed.

Lemma emits_wrapping {A} msg (m : M A) : emits I P m → emits I P (wrapping msg m).
Proof.
  intros Hm w HI. destruct (Hm w HI) as (HI' & evs & Htr & HP).
  unfold wrapping. destruct (m w) as [w' [a|e|msg'|]]; simpl in *; eauto.
Qed.

Lemma emits_returning err : emits I P (returning err : M unit).
Proof. destruct err; [apply emits_fail | apply emits_ret]. Qed.

Lemma emits_lift {A} (r : result A) : emits I P (lift r : M A).
Proof. destruct r; [apply emits_ret | apply emits_fail]. Qed.

Lemma emits_forEach {A} (f : A → M unit) (l : list A) :
  (∀ x, emits I P (f x)) → emits I P (forEach f l).
Proof.
  intros Hf. induction l as [|x l IH]; simpl.
  - apply emits_ret.
  - apply emits_bind; [apply Hf | intros _; exact IH].
Qed.

Lemma emits_forRange {A} (f : Z → A → M unit) (l : list A) :
  (∀ i x, emits I P (f i x)) → emits I P (forRange f l).
Proof. intros Hf. apply emits_forEach. intros [i x]. apply Hf. Qed.

(** A step that changes the world by [g], where [g] keeps [I], and
    appends the one event [e]. *)
Lemma emits_step {A} (m : M A) :
  (∀ w, I w → I (fst (m w)) ∧ ∃ e, trace (fst (m w)) = trace w ++ [e] ∧ P [e]) →
  emits I P m.
Proof.
  intros Hm w HI. destruct (Hm w HI) as (HI' & e & Htr & HP). eauto.
Qed.

End emits.

(** Applies a rule of [emits] and finds its [TraceProp]. *)
Tactic Notation "emits_rule" open_constr(lem) :=
  apply lem; try lazymatch goal with |- TraceProp _ => exact _ end.

(** Takes an [emits] goal apart along the structure of the function. *)
Ltac emits_step_tac :=
  lazymatch goal with
  | |- emits _ _ (mbind _ _) => emits_rule emits_bind; [| intros]
  | |- emits _ _ (mret _) => emits_rule emits_ret
  | |- emits _ _ (fail _) => emits_rule emits_fail
  | |- emits _ _ (panic _) => emits_rule emits_panic
  | |- emits _ _ no_return => emits_rule emits_no_return
  | |- emits _ _ (wrapping _ _) => emits_rule emits_wrapping
  | |- emits _ _ (returning _) => emits_rule emits_returning
  | |- emits _ _ (lift _) => emits_rule emits_lift
  | |- emits _ _ (forEach _ _) => emits_rule emits_forEach; intros
  | |- emits _ _ (forRange _ _) => emits_rule emits_forRange; intros
  | |- emits _ _ (match ?x with _ => _ end) => destruct x
  | |- emits _ _ (let '(_, _) := ?x in _) => destruct x
  end.


(** ** Writes to the key store *)

Lemma sets_guarded_weaken exempt prev evs :
  sets_guarded exempt None evs = true → sets_guarded exempt prev evs = true.
Proof.
  destruct evs as [|e evs]; [done |]. simpl.
  intros [He Hrest]%andb_true_iff. apply andb_true_iff. split; [| exact Hrest].
  destruct e; try done. apply orb_true_iff in He as [He|He]; [by rewrite He | done].
Qed.

Lemma sets_guarded_app exempt prev a b :
  sets_guarded exempt prev a = true →
  sets_guarded exempt None b = true →
  sets_guarded exempt prev (a ++ b) = true.
Proof.
  revert prev. induction a as [|e a IH]; intros prev Ha Hb; simpl in *.
  - by apply sets_guarded_weaken.
  - apply andb_true_iff in Ha as [He Ha]. rewrite He. simpl. by apply IH.
Qed.

#[export] Instance guarded_trace_prop exempt : TraceProp (guarded exempt).
Proof.
  split; [reflexivity |]. intros a b Ha Hb. by apply sets_guarded_app.
Qed.

Section store_writes.

Context {K V X : Type} `{!KVService K} `{!AdminAPI V}.

#[local] Abbreviation World := (World (K:=K) (V:=V) (X:=X)).
#[local] Abbreviation M := (M (K:=K) (V:=V) (X:=X)).

(** [keyStoreNotFound] answers (true, nil) or (false, err), and never
    (true, err) with an error. *)
Lemma keyStoreNotFound_eq key (w w1 : World) r :
  keyStore_Get key w = (w1, Ret r) →
  keyStoreNotFound key w
  = (w1, Ret match r with
             | Ok _ => (false, None)
             | Err err => if isNotFoundError err then (true, None) else (false, Some err)
             end).
Proof.
  intros Hget. unfold keyStoreNotFound. rewrite (bind_ret _ _ _ _ _ Hget).
  destruct r as [v|err]; simpl; [reflexivity |]. by destruct (isNotFoundError err).
Qed.

Lemma keyStoreSet_exists key val (w w1 : World) v :
  keyStore_Get key w = (w1, Ret (Ok v)) →
  keyStoreSet key val w
  = (w1, Fail (ErrNew ("error setting key '" +:+ key +:+ "': it already exists"))).
Proof.
  intros Hget. unfold keyStoreSet.
  rewrite (bind_ret _ _ _ _ _ (keyStoreNotFound_eq _ _ _ _ Hget)). reflexivity.
Qed.

Lemma keyStoreSet_store_error key val (w w1 : World) err :
  keyStore_Get key w = (w1, Ret (Err err)) →
  isNotFoundError err = false →
  keyStoreSet key val w = (w1, Fail (ErrWrap err ("error setting key '" +:+ key +:+ "'"))).
Proof.
  intros Hget Hnf. unfold keyStoreSet.
  rewrite (bind_ret _ _ _ _ _ (keyStoreNotFound_eq _ _ _ _ Hget)). by rewrite Hnf.
Qed.

Lemma keyStoreSet_absent key val (w w1 : World) err :
  keyStore_Get key w = (w1, Ret (Err err)) →
  isNotFoundError err = true →
  keyStoreSet key val w = (keyStore_Set key val ≫= returning) w1.
Proof.
  intros Hget Hnf. unfold keyStoreSet.
  rewrite (bind_ret _ _ _ _ _ (keyStoreNotFound_eq _ _ _ _ Hget)). by rewrite Hnf.
Qed.

Lemma returning_world err (w : World) : fst (returning err w) = w.
Proof. by destruct err. Qed.

(** The probe writes its key when the key is there, too. *)
Lemma Test_writes key (w w1 : World) r :
  keyStore_Get key w = (w1, Ret r) →
  match r with Ok _ => true | Err err => isNotFoundError err end = true →
  Test key w = (keyStore_Set key key ≫= returning) w1.
Proof.
  intros Hget Hr. unfold Test.
  unfold mbind at 1, M_bind at 1. unfold mbind at 1, M_bind at 1.
  rewrite Hget. destruct r as [v|err]; simpl in *; [reflexivity |].
  rewrite Hr. reflexivity.
Qed.

Lemma Test_store_error key (w w1 : World) err :
  keyStore_Get key w = (w1, Ret (Err err)) →
  isNotFoundError err = false →
  Test key w = (w1, Fail err).
Proof.
  intros Hget Hnf. unfold Test. rewrite (bind_ret _ _ _ _ _ Hget).
  unfold mbind, M_bind. rewrite Hnf. reflexivity.
Qed.

Section init_trace.

Variable cfg : Config.

#[local] Abbreviation writes_guarded :=
  (emits (K:=K) (V:=V) (X:=X) (configured cfg) (guarded (probe_key cfg))).

Lemma guarded_request q : writes_guarded (cl_request q).
Proof.
  emits_rule emits_step. intros w Hw. rewrite cl_request_eq. simpl. split; [exact Hw |].
  eexists. split; reflexivity.
Qed.

Lemma guarded_Get key : writes_guarded (keyStore_Get key).
Proof.
  emits_rule emits_step. intros w Hw. rewrite keyStore_Get_eq. simpl. split; [exact Hw |].
  eexists. split; reflexivity.
Qed.

Lemma guarded_SetToken t : writes_guarded (cl_SetToken t).
Proof.
  emits_rule emits_step. intros w Hw. simpl. split; [exact Hw |]. eexists. split; reflexivity.
Qed.

Lemma guarded_Sleep d : writes_guarded (Sleep d).
Proof.
  emits_rule emits_step. intros w Hw. simpl. split; [exact Hw |]. eexists. split; reflexivity.
Qed.

Lemma guarded_keyStoreNotFound key : writes_guarded (keyStoreNotFound key).
Proof.
  unfold keyStoreNotFound. emits_rule emits_bind; [apply guarded_Get | intros r].
  destruct (isNotFoundError_opt _); emits_rule emits_ret.
Qed.

(** [keyStoreSet] appends a [Get], and a [Set] only behind a not-found. *)
Lemma guarded_keyStoreSet key val : writes_guarded (keyStoreSet key val).
Proof.
  intros w Hw.
  destruct (keyStore_Get key w) as [w1 o] eqn:Hget.
  pose proof Hget as Hget'. rewrite keyStore_Get_eq in Hget'.
  injection Hget' as <- <-.
  set (r := snd (Get key (keyStore (self w)))) in *.
  destruct r as [v|err] eqn:Hr.
  - rewrite (keyStoreSet_exists _ _ _ _ _ Hget). simpl. split; [exact Hw |].
    eexists. split; reflexivity.
  - destruct (isNotFoundError err) eqn:Hnf.
    + rewrite (keyStoreSet_absent _ _ _ _ _ Hget Hnf).
      unfold mbind, M_bind. rewrite keyStore_Set_eq.
      set (e := snd (Set_ key val _)).
      rewrite returning_world. simpl. split; [exact Hw |].
      exists [EvGet key (Err err); EvSet key val e]. split.
      * by rewrite <- app_assoc.
      * unfold guarded. simpl. rewrite Hnf.
        rewrite bool_decide_true by done. simpl. by rewrite orb_true_r.
    + rewrite (keyStoreSet_store_error _ _ _ _ _ Hget Hnf). simpl. split; [exact Hw |].
      eexists. split; reflexivity.
Qed.

(** The probe appends a [Get] and, maybe, a [Set] of its own key. *)
Lemma guarded_Test : PreFlightChecks cfg = true → writes_guarded (Test testKey).
Proof.
  intros Hpre w Hw.
  destruct (keyStore_Get testKey w) as [w1 o] eqn:Hget.
  pose proof Hget as Hget'. rewrite keyStore_Get_eq in Hget'.
  injection Hget' as <- <-.
  set (r := snd (Get testKey (keyStore (self w)))) in *.
  destruct (match r with Ok _ => true | Err err => isNotFoundError err end) eqn:Hr.
  - rewrite (Test_writes _ _ _ _ Hget Hr).
    unfold mbind, M_bind. rewrite keyStore_Set_eq.
    rewrite returning_world. simpl. split; [exact Hw |].
    eexists [_; _]. split; [by rewrite <- app_assoc |].
    unfold guarded, probe_key. simpl. rewrite Hpre. reflexivity.
  - destruct r as [v|err] eqn:Er; [discriminate |].
    rewrite (Test_store_error _ _ _ _ Hget Hr). simpl. split; [exact Hw |].
    eexists. split; reflexivity.
Qed.

Lemma guarded_Sealed : writes_guarded Sealed.
Proof.
  unfold Sealed. emits_rule emits_bind; [apply (guarded_request api.SysSealStatus) | intros r].
  destruct r; emits_rule emits_ret.
Qed.

Lemma guarded_waitUnsealed fuel : writes_guarded (waitUnsealed fuel).
Proof.
  induction fuel as [|fuel IH]; simpl.
  - emits_rule emits_no_return.
  - emits_rule emits_bind; [apply guarded_Sealed | intros [sealed err]].
    destruct sealed; simpl.
    + emits_rule emits_bind; [apply guarded_Sleep | intros _; exact IH].
    + emits_rule emits_ret.
Qed.

(** What [v.config] reads is the configuration the world has. *)
Lemma guarded_v_config {A} (f : Config → M A) :
  writes_guarded (f cfg) → writes_guarded (v_config ≫= f).
Proof.
  intros Hf w Hw. unfold mbind, M_bind, v_config.
  replace (config (self w)) with cfg by (symmetry; exact Hw). exact (Hf w Hw).
Qed.

Lemma guarded_Init fuel : writes_guarded (Init fuel).
Proof.
  unfold Init.
  emits_rule emits_bind; [apply (guarded_request api.SysInitStatus) | intros r].
  destruct r as [[|]|err]; [emits_rule emits_ret | | emits_rule emits_fail].
  apply guarded_v_config.
  emits_rule emits_bind.
  { destruct (PreFlightChecks cfg) eqn:Hpre; [| emits_rule emits_ret].
    emits_rule emits_wrapping. by apply guarded_Test. }
  intros _. emits_rule emits_bind.
  { emits_rule emits_forEach. intros key.
    emits_rule emits_bind; [apply guarded_keyStoreNotFound | intros [[|] [e|]]];
      first [emits_rule emits_fail | emits_rule emits_ret]. }
  intros _. emits_rule emits_bind; [apply (guarded_request (api.SysInit _)) | intros r].
  destruct r as [resp|err]; [| emits_rule emits_fail].
  emits_rule emits_bind.
  { emits_rule emits_forRange. intros i k. emits_rule emits_wrapping.
    apply guarded_keyStoreSet. }
  intros _. emits_rule emits_bind.
  { emits_rule emits_forRange. intros i k. emits_rule emits_wrapping.
    apply guarded_keyStoreSet. }
  intros _. emits_rule emits_bind.
  { destruct (bool_decide _); [| emits_rule emits_ret].
    emits_rule emits_bind; [apply guarded_waitUnsealed | intros _].
    emits_rule emits_bind; [apply guarded_SetToken | intros _].
    emits_rule emits_bind; [apply (guarded_request (api.TokenCreateOrphan _)) | intros r].
    destruct r as [?|err]; [| emits_rule emits_fail].
    emits_rule emits_bind; [apply (guarded_request (api.TokenRevokeSelf _)) | intros r].
    destruct r as [?|err]; [emits_rule emits_ret | emits_rule emits_fail]. }
  intros rootToken. destruct (StoreRootToken cfg); [| emits_rule emits_ret].
  emits_rule emits_wrapping. apply guarded_keyStoreSet.
Qed.

End init_trace.

(** C7, as the code has it. Every write that goes through [keyStoreSet]
    is set-if-absent: when the [Get] of the key finds a value,
    [keyStoreSet] returns the already-exists error and the world is the one
    the [Get] left (no [Set] is called, the stored value stays); when the
    [Get] fails with an error other than not-found, that error is returned,
    wrapped, and again nothing is written; only behind a not-found does it
    call [Set]. All the shares and the root token that [Init] persists go
    through it: in every run of [Init], each [Set] of a key comes right
    after a [Get] of that key that reported not-found, the pre-flight
    probe's key alone being exempt, and only when the probe is on. The
    probe [Test] is not set-if-absent: when the [Get] of its key finds a
    value (or reports not-found) it calls [Set] on the key all the same. *)
Theorem keyStoreSet_guards_writes_but_the_probe_does_not :
  (∀ (w w1 : World) key val,
     (∀ v, keyStore_Get key w = (w1, Ret (Ok v)) →
           keyStoreSet key val w
           = (w1, Fail (ErrNew ("error setting key '" +:+ key +:+ "': it already exists"))))
     ∧ (∀ err, keyStore_Get key w = (w1, Ret (Err err)) →
               isNotFoundError err = false →
               keyStoreSet key val w
               = (w1, Fail (ErrWrap err ("error setting key '" +:+ key +:+ "'"))))
     ∧ (∀ err, keyStore_Get key w = (w1, Ret (Err err)) →
               isNotFoundError err = true →
               keyStoreSet key val w = (keyStore_Set key val ≫= returning) w1))
  ∧ (∀ (w : World) fuel,
       ∃ evs, trace (fst (Init fuel w)) = trace w ++ evs
              ∧ guarded (probe_key (config (self w))) evs)
  ∧ (∀ (w w1 : World) key v,
       keyStore_Get key w = (w1, Ret (Ok v)) →
       Test key w = (keyStore_Set key key ≫= returning) w1).
Proof.
  split; [| split].
  - intros w w1 key val. split; [| split].
    + intros v Hget. by eapply keyStoreSet_exists.
    + intros err Hget Hnf. by eapply keyStoreSet_store_error.
    + intros err Hget Hnf. by eapply keyStoreSet_absent.
  - intros w fuel. by destruct (guarded_Init (config (self w)) fuel w) as (_ & evs & ? & ?); eauto.
  - intros w w1 key v Hget. by eapply Test_writes.
Qed.

End store_writes.

(** ** Required fields of a plugin record *)

Section plugins.

Context {K V D X : Type} `{!KVService K} `{!AdminAPI V} `{!Viper D X}.
Variable ParsePluginType : string → result api.PluginType.

#[local] Abbreviation World := (World (K:=K) (V:=V) (X:=X)).

Lemma index_nil (m : gmap string value) key :
  index m key = VNil ↔ m !! key = None ∨ m !! key = Some VNil.
Proof.
  unfold index. destruct (m !! key) as [v|]; simpl.
  - split; [intros ->; by right | intros [?|[= ->]]; done].
  - split; [by left | done].
Qed.

Lemma getOrError_not_set (m : gmap string value) key :
  getOrError m key = Err (not_set_error key) ↔ index m key = VNil.
Proof.
  unfold getOrError, not_set_error.
  destruct (index m key) eqn:Hv; simpl; split; try done; discriminate.
Qed.

Lemma getOrError_string (m : gmap string value) key s :
  m !! key = Some (VString s) → getOrError m key = Ok s.
Proof. intros Hm. unfold getOrError, index. by rewrite Hm. Qed.

Lemma configurePlugins_one (config : D) (w w1 : World) plugin listed
    command pluginName sha256 typeRaw pluginType :
  UnmarshalKey config "plugins" = Ok [plugin] →
  cl_request api.SysListPlugins w = (w1, Ret (Ok listed)) →
  getOrError plugin "command" = Ok command →
  getOrError plugin "plugin_name" = Ok pluginName →
  getOrError plugin "sha256" = Ok sha256 →
  getOrError plugin "type" = Ok typeRaw →
  ParsePluginType typeRaw = Ok pluginType →
  configurePlugins ParsePluginType config w
  = register {| api.Name := pluginName; api.Command := command;
                api.SHA256 := sha256; api.Type_ := pluginType |} w1.
Proof.
  intros Hcfg Hlist Hc Hn Hs Ht Hp. unfold configurePlugins. rewrite Hcfg. simpl.
  rewrite (bind_ret _ _ _ _ _ Hlist). simpl.
  rewrite Hc, Hn, Hs, Ht. simpl. unfold mbind, M_bind. simpl. rewrite Hp. simpl.
  unfold register, mbind, M_bind.
  destruct (cl_request _ w1) as [w2 [[[]|err]|e|msg|]]; reflexivity.
Qed.

(** C10. [getOrError] returns the error "value for <key> is not set"
    exactly when the field is absent or its value is nil; a field that
    holds a string, the empty string included, is returned as it is. So a
    plugin record whose [command] is the empty string, and whose other
    three fields are strings with a type the SDK knows, goes on to the
    registration: after the list request, [configurePlugins] sends the
    register request with the empty command. *)
Theorem getOrError_fires_only_when_unset :
  (∀ (m : gmap string value) key,
     (getOrError m key = Err (not_set_error key)
      ↔ m !! key = None ∨ m !! key = Some VNil)
     ∧ (∀ s, m !! key = Some (VString s) → getOrError m key = Ok s)
     ∧ (m !! key = Some (VString "") → getOrError m key = Ok ""))
  ∧ (∀ (config : D) (w w1 : World) plugin listed pluginName sha256 typeRaw pluginType,
       UnmarshalKey config "plugins" = Ok [plugin] →
       cl_request api.SysListPlugins w = (w1, Ret (Ok listed)) →
       plugin !! "command" = Some (VString "") →
       plugin !! "plugin_name" = Some (VString pluginName) →
       plugin !! "sha256" = Some (VString sha256) →
       plugin !! "type" = Some (VString typeRaw) →
       ParsePluginType typeRaw = Ok pluginType →
       let input := {| api.Name := pluginName; api.Command := "";
                       api.SHA256 := sha256; api.Type_ := pluginType |} in
       configurePlugins ParsePluginType config w = register input w1
       ∧ trace (fst (configurePlugins ParsePluginType config w))
         = trace w ++ [EvRequest (token (cl (self w))) api.SysListPlugins;
                       EvRequest (token (cl (self w))) (api.SysRegisterPlugin input)]).
Proof.
  split.
  - intros m key. split; [| split].
    + rewrite getOrError_not_set. apply index_nil.
    + intros s. apply getOrError_string.
    + apply getOrError_string.
  - intros config w w1 plugin listed pluginName sha256 typeRaw pluginType
      Hcfg Hlist Hc Hn Hs Ht Hp input.
    assert (configurePlugins ParsePluginType config w = register input w1) as Heq.
    { eapply configurePlugins_one; eauto using getOrError_string. }
    split; [exact Heq |]. rewrite Heq.
    apply cl_request_returns in Hlist as (_ & Htr & _ & Htok).
    unfold register, mbind, M_bind. rewrite cl_request_eq. rewrite Htok.
    destruct (snd (serve _ _ _)) as [[]|err]; simpl; rewrite Htr, <- app_assoc; reflexivity.
Qed.

End plugins.

(** ** Configure and the client's token *)

#[export] Instance under_token_trace_prop tok : TraceProp (Forall (under_token tok)).
Proof. split; [constructor | intros a b Ha Hb; by apply Forall_app]. Qed.

Create HintDb scoped.

Section configure.

Context {K V D X : Type} `{!KVService K} `{!AdminAPI V} `{!Viper D X}.
Variable Getenv : string → string.
Variables configureAuthMethods configurePolicies configureSecretsEngines
  : M (K:=K) (V:=V) (X:=X) unit.
Variable ParsePluginType : string → result api.PluginType.
Variable DecodeAuditOptions : gmap string value → result api.EnableAuditOptions.
Variable GetConfigOrDie : option unit.
Variable crclient_New : option error.
Variable crclient_Get : string → string → result (gmap string bytes).

#[local] Abbreviation World := (World (K:=K) (V:=V) (X:=X)).
#[local] Abbreviation M := (M (K:=K) (V:=V) (X:=X)).
#[local] Abbreviation scoped_at tok := (emits (K:=K) (V:=V) (X:=X) (has_token tok) (Forall (under_token tok))).

Lemma scoped_request tok q : scoped_at tok (cl_request q).
Proof.
  emits_rule emits_step. intros w Hw. rewrite cl_request_eq. simpl. split; [exact Hw |].
  eexists. split; [reflexivity |]. constructor; [exact Hw | constructor].
Qed.

Lemma scoped_Unmarshal_extConfig tok (config : D) : scoped_at tok (Unmarshal_extConfig config).
Proof.
  intros w Hw. unfold Unmarshal_extConfig. destruct (Unmarshal config (extConfig w)).
  simpl. split; [exact Hw |]. exists []. split; [by rewrite app_nil_r | constructor].
Qed.

Ltac scoped_tac :=
  repeat (simpl; first
    [ lazymatch goal with
      | |- emits _ _ (cl_request ?q) => apply (scoped_request _ q)
      end
    | emits_step_tac
    | solve [eauto with scoped] ]).

Lemma scoped_writeWithWarningCheck tok path data :
  scoped_at tok (writeWithWarningCheck path data).
Proof. unfold writeWithWarningCheck. scoped_tac. Qed.
Hint Resolve scoped_writeWithWarningCheck : scoped.

Lemma scoped_configurePlugins tok (config : D) :
  scoped_at tok (configurePlugins ParsePluginType config).
Proof. unfold configurePlugins. scoped_tac. Qed.

Lemma scoped_configureAuditDevices tok (config : D) :
  scoped_at tok (configureAuditDevices DecodeAuditOptions config).
Proof. unfold configureAuditDevices. scoped_tac. Qed.

Lemma scoped_getOrDefaultSecretData tok m :
  scoped_at tok (getOrDefaultSecretData Getenv GetConfigOrDie crclient_New crclient_Get m).
Proof. unfold getOrDefaultSecretData. scoped_tac. Qed.
Hint Resolve scoped_getOrDefaultSecretData : scoped.

Lemma scoped_readStartupSecret tok startupSecret :
  scoped_at tok (readStartupSecret Getenv GetConfigOrDie crclient_New crclient_Get startupSecret).
Proof. unfold readStartupSecret. scoped_tac. Qed.
Hint Resolve scoped_readStartupSecret : scoped.

Lemma scoped_configureStartupSecrets tok (config : D) :
  scoped_at tok (configureStartupSecrets Getenv GetConfigOrDie crclient_New crclient_Get config).
Proof. unfold configureStartupSecrets. scoped_tac. Qed.

Lemma scoped_readVaultGroup tok group : scoped_at tok (readVaultGroup group).
Proof. unfold readVaultGroup. scoped_tac. Qed.
Hint Resolve scoped_readVaultGroup : scoped.

Lemma scoped_readVaultGroupAlias tok id : scoped_at tok (readVaultGroupAlias id).
Proof. unfold readVaultGroupAlias. scoped_tac. Qed.
Hint Resolve scoped_readVaultGroupAlias : scoped.

Lemma scoped_getVaultAuthMountAccessor tok path : scoped_at tok (getVaultAuthMountAccessor path).
Proof. unfold getVaultAuthMountAccessor. scoped_tac. Qed.
Hint Resolve scoped_getVaultAuthMountAccessor : scoped.

Lemma scoped_assert_string tok x : scoped_at tok (assert_string x).
Proof. unfold assert_string. scoped_tac. Qed.
Hint Resolve scoped_assert_string : scoped.

Lemma scoped_getVaultGroupID tok group : scoped_at tok (getVaultGroupID group).
Proof. unfold getVaultGroupID. scoped_tac. Qed.
Hint Resolve scoped_getVaultGroupID : scoped.

Lemma scoped_getVaultGroupAliasName tok aliasID : scoped_at tok (getVaultGroupAliasName aliasID).
Proof. unfold getVaultGroupAliasName. scoped_tac. Qed.
Hint Resolve scoped_getVaultGroupAliasName : scoped.

Lemma scoped_getVaultGroupAliasMount tok aliasID : scoped_at tok (getVaultGroupAliasMount aliasID).
Proof. unfold getVaultGroupAliasMount. scoped_tac. Qed.
Hint Resolve scoped_getVaultGroupAliasMount : scoped.

Lemma scoped_scanGroupAliases tok name accessor keys :
  scoped_at tok (scanGroupAliases name accessor keys).
Proof.
  induction keys as [|alias keys IH]; simpl; [emits_rule emits_ret |].
  emits_rule emits_bind; [scoped_tac | intros aliasName].
  emits_rule emits_bind; [scoped_tac | intros aliasMount].
  destruct (_ && _); [emits_rule emits_ret | exact IH].
Qed.
Hint Resolve scoped_scanGroupAliases : scoped.

Lemma scoped_findVaultGroupAliasIDFromNameAndMount tok name accessor :
  scoped_at tok (findVaultGroupAliasIDFromNameAndMount name accessor).
Proof. unfold findVaultGroupAliasIDFromNameAndMount. scoped_tac. Qed.
Hint Resolve scoped_findVaultGroupAliasIDFromNameAndMount : scoped.

Lemma scoped_configureGroup tok group : scoped_at tok (configureGroup group).
Proof. unfold configureGroup. scoped_tac. Qed.
Hint Resolve scoped_configureGroup : scoped.

Lemma scoped_configureGroupAlias tok groupAlias : scoped_at tok (configureGroupAlias groupAlias).
Proof. unfold configureGroupAlias. scoped_tac. Qed.
Hint Resolve scoped_configureGroupAlias : scoped.

Lemma scoped_configureIdentityGroups tok (config : D) :
  scoped_at tok (configureIdentityGroups config).
Proof. unfold configureIdentityGroups. scoped_tac. Qed.

(** The three reconcilers of the other files send their requests through
    the client as it is and do not set its token. *)
Hypothesis auth_scoped : scoped configureAuthMethods.
Hypothesis policies_scoped : scoped configurePolicies.
Hypothesis secrets_scoped : scoped configureSecretsEngines.

#[local] Abbreviation Configure_steps :=
  (Configure_steps Getenv configureAuthMethods configurePolicies configureSecretsEngines
     ParsePluginType DecodeAuditOptions GetConfigOrDie crclient_New crclient_Get).
#[local] Abbreviation Configure :=
  (Configure Getenv configureAuthMethods configurePolicies configureSecretsEngines
     ParsePluginType DecodeAuditOptions GetConfigOrDie crclient_New crclient_Get).

Lemma scoped_Configure_steps tok (config : D) : scoped_at tok (Configure_steps config).
Proof.
  unfold Configure_steps.
  emits_rule emits_bind; [apply scoped_Unmarshal_extConfig | intros err].
  emits_rule emits_bind; [scoped_tac | intros _].
  emits_rule emits_bind; [emits_rule emits_wrapping; apply auth_scoped | intros _].
  emits_rule emits_bind; [emits_rule emits_wrapping; apply policies_scoped | intros _].
  emits_rule emits_bind; [emits_rule emits_wrapping; apply secrets_scoped | intros _].
  emits_rule emits_bind; [emits_rule emits_wrapping; apply scoped_configurePlugins | intros _].
  emits_rule emits_bind; [emits_rule emits_wrapping; apply scoped_configureAuditDevices | intros _].
  emits_rule emits_bind; [emits_rule emits_wrapping; apply scoped_configureStartupSecrets | intros _].
  emits_rule emits_wrapping. apply scoped_configureIdentityGroups.
Qed.

(** C8. When the root token cannot be fetched from the key store,
    [Configure] returns that error, wrapped; the fetch is the only call it
    has made, so nothing was sent to the server and the client is as it
    was. When the fetch gives the token, [Configure] sets it on the client,
    every request of the call is sent under it and nothing in between sets
    the token, and on every way out that hands control back (a nil return,
    an error return, a panic) the last thing done is to set the client's
    token to the empty string. *)
Theorem Configure_scopes_the_root_token (config : D) (w w1 : World) :
  (∀ err,
     keyStore_Get rootTokenKey w = (w1, Ret (Err err)) →
     Configure config w
     = (w1, Fail (ErrWrap err ("unable to get key '" +:+ rootTokenKey +:+ "'")))
     ∧ trace w1 = trace w ++ [EvGet rootTokenKey (Err err)]
     ∧ cl (self w1) = cl (self w))
  ∧ (∀ rootToken,
       keyStore_Get rootTokenKey w = (w1, Ret (Ok rootToken)) →
       ∃ evs,
         Forall (under_token rootToken) evs
         ∧ let w' := fst (Configure config w) in
           match snd (Configure config w) with
           | NoReturn => trace w' = trace w1 ++ EvSetToken rootToken :: evs
           | _ => token (cl (self w')) = ""
                  ∧ trace w' = trace w1 ++ EvSetToken rootToken :: evs ++ [EvSetToken ""]
           end).
Proof.
  split.
  - intros err Hget. unfold Configure. rewrite (bind_ret _ _ _ _ _ Hget).
    split; [reflexivity |]. rewrite keyStore_Get_eq in Hget.
    injection Hget as <- Hr. rewrite Hr. split; reflexivity.
  - intros rootToken Hget. unfold Configure. rewrite (bind_ret _ _ _ _ _ Hget).
    unfold mbind, M_bind, cl_SetToken, defer. simpl.
    set (w2 := add_event (EvSetToken rootToken) (set_token rootToken w1)).
    destruct (scoped_Configure_steps rootToken config w2) as (Htok & evs & Htr & Hevs);
      [reflexivity |].
    exists evs. split; [exact Hevs |].
    fold Configure_steps.
    destruct (Configure_steps config w2) as [w3 [[]|e|msg|]]; simpl in *.
    + split; [reflexivity |]. rewrite Htr. by rewrite <- !app_assoc.
    + split; [reflexivity |]. rewrite Htr. by rewrite <- !app_assoc.
    + split; [reflexivity |]. rewrite Htr. by rewrite <- !app_assoc.
    + rewrite Htr. by rewrite <- !app_assoc.
Qed.

End configure.

(** ** Group aliases *)

Section group_aliases.

Context {K V X : Type} `{!KVService K} `{!AdminAPI V}.

#[local] Abbreviation World := (World (K:=K) (V:=V) (X:=X)).
#[local] Abbreviation M := (M (K:=K) (V:=V) (X:=X)).

Lemma add_events_app evs evs' (w : World) :
  add_events evs' (add_events evs w) = add_events (evs ++ evs') w.
Proof. unfold add_events. simpl. by rewrite app_assoc. Qed.

Lemma add_events_nil (w : World) : add_events [] w = w.
Proof. destruct w. unfold add_events. simpl. by rewrite app_nil_r. Qed.

Lemma set_server_same (w : World) : set_server (server (cl (self w))) w = w.
Proof. by destruct w as [[k [t s] c rc] x tr]. Qed.

(** A request that leaves the server as it is only adds its event. *)
Lemma cl_request_stable q (w : World) r :
  serve (token (cl (self w))) q (server (cl (self w))) = (server (cl (self w)), r) →
  cl_request q w = (add_events [EvRequest (token (cl (self w))) q] w, Ret r).
Proof.
  intros Hserve. rewrite cl_request_eq, Hserve. simpl. by rewrite set_server_same.
Qed.

Lemma cl_request_stable_after q evs (w : World) r :
  serve (token (cl (self w))) q (server (cl (self w))) = (server (cl (self w)), r) →
  cl_request q (add_events evs w)
  = (add_events (evs ++ [EvRequest (token (cl (self w))) q]) w, Ret r).
Proof.
  intros Hserve. rewrite (cl_request_stable q (add_events evs w) r Hserve).
  by rewrite add_events_app.
Qed.

Lemma matching_alias_Some name accessor aliases a :
  matching_alias name accessor aliases = Some a →
  ga_name a = name ∧ ga_mount a = accessor ∧ a ∈ aliases.
Proof.
  induction aliases as [|b aliases IH]; simpl; [done |].
  case_bool_decide as Hb.
  - intros [= ->]. destruct Hb. repeat split; [done | done | left].
  - intros Ha. destruct (IH Ha) as (? & ? & ?). repeat split; [done | done | by right].
Qed.

Lemma matching_alias_None name accessor aliases :
  (∀ a, a ∈ aliases → ga_name a = name → ga_mount a ≠ accessor) →
  matching_alias name accessor aliases = None.
Proof.
  induction aliases as [|b aliases IH]; simpl; [done |]. intros Hno.
  case_bool_decide as Hb.
  - destruct Hb as [Hn Hm]. exfalso. eapply Hno; [left | done | done].
  - apply IH. intros a Ha. apply Hno. by right.
Qed.

Section scan.

Variables (w : World) (name accessor : string).

#[local] Abbreviation tok := (token (cl (self w))).
#[local] Abbreviation s := (server (cl (self w))).

Lemma read_alias_name evs a :
  alias_known tok s a →
  getVaultGroupAliasName (cast.ToString (VString (ga_id a))) (add_events evs w)
  = (add_events (evs ++ [EvRequest tok (api.LogicalRead ("identity/group-alias/id/" +:+ ga_id a))]) w,
     Ret (ga_name a)).
Proof.
  intros (sec & Hread & Hname & _). unfold getVaultGroupAliasName, readVaultGroupAlias.
  change (cast.ToString (VString (ga_id a))) with (ga_id a).
  unfold wrapping, mbind, M_bind.
  rewrite (cl_request_stable_after _ _ _ _ Hread). simpl. rewrite Hname. reflexivity.
Qed.

Lemma read_alias_mount evs a :
  alias_known tok s a →
  getVaultGroupAliasMount (cast.ToString (VString (ga_id a))) (add_events evs w)
  = (add_events (evs ++ [EvRequest tok (api.LogicalRead ("identity/group-alias/id/" +:+ ga_id a))]) w,
     Ret (ga_mount a)).
Proof.
  intros (sec & Hread & _ & Hmount). unfold getVaultGroupAliasMount, readVaultGroupAlias.
  change (cast.ToString (VString (ga_id a))) with (ga_id a).
  unfold wrapping, mbind, M_bind.
  rewrite (cl_request_stable_after _ _ _ _ Hread). simpl. rewrite Hmount. reflexivity.
Qed.

(** The scan returns the id of the first alias that matches on both, or
    the empty string, and has only read. *)
Lemma scanGroupAliases_spec aliases :
  Forall (alias_known tok s) aliases →
  ∀ evs, Forall (is_read tok) evs →
  ∃ evs', Forall (is_read tok) evs'
    ∧ scanGroupAliases name accessor ((λ a, VString (ga_id a)) <$> aliases) (add_events evs w)
      = (add_events evs' w,
         Ret (default "" (ga_id <$> matching_alias name accessor aliases))).
Proof.
  induction 1 as [|a aliases Ha _ IH]; intros evs Hevs.
  - exists evs. split; [exact Hevs | reflexivity].
  - simpl scanGroupAliases. simpl fmap at 1.
    unfold mbind at 1, M_bind at 1, wrapping at 1.
    rewrite (read_alias_name _ _ Ha).
    unfold mbind at 1, M_bind at 1, wrapping at 1.
    rewrite (read_alias_mount _ _ Ha).
    assert (Forall (is_read tok)
              ((evs ++ [EvRequest tok (api.LogicalRead ("identity/group-alias/id/" +:+ ga_id a))])
               ++ [EvRequest tok (api.LogicalRead ("identity/group-alias/id/" +:+ ga_id a))]))
      as Hevs'.
    { repeat (apply Forall_app; split); try exact Hevs; by repeat constructor. }
    simpl matching_alias.
    destruct (bool_decide (ga_name a = name)) eqn:Hn;
      destruct (bool_decide (ga_mount a = accessor)) eqn:Hm; simpl.
    + rewrite bool_decide_true
        by (split; [by apply bool_decide_eq_true in Hn | by apply bool_decide_eq_true in Hm]).
      eexists. split; [exact Hevs' | reflexivity].
    + rewrite bool_decide_false by (intros [_ ?]; by apply bool_decide_eq_false in Hm).
      apply IH. exact Hevs'.
    + rewrite bool_decide_false by (intros [? _]; by apply bool_decide_eq_false in Hn).
      apply IH. exact Hevs'.
    + rewrite bool_decide_false by (intros [? _]; by apply bool_decide_eq_false in Hn).
      apply IH. exact Hevs'.
Qed.

Lemma findVaultGroupAliasIDFromNameAndMount_spec aliases evs :
  aliases_listed tok s aliases →
  Forall (alias_known tok s) aliases →
  Forall (is_read tok) evs →
  ∃ evs', Forall (is_read tok) evs'
    ∧ findVaultGroupAliasIDFromNameAndMount name accessor (add_events evs w)
      = (add_events evs' w,
         Ret (default "" (ga_id <$> matching_alias name accessor aliases))).
Proof.
  intros Hlist Hknown Hevs. unfold findVaultGroupAliasIDFromNameAndMount.
  assert (Forall (is_read tok) (evs ++ [EvRequest tok (api.LogicalList "identity/group-alias/id")]))
    as Hevs' by (apply Forall_app; split; [exact Hevs | by repeat constructor]).
  destruct Hlist as [[-> Hnone] | (sec & Hsome & Hkeys)].
  - unfold mbind, M_bind. rewrite (cl_request_stable_after _ _ _ _ Hnone).
    eexists. split; [exact Hevs' | reflexivity].
  - unfold mbind, M_bind. rewrite (cl_request_stable_after _ _ _ _ Hsome). rewrite Hkeys.
    by apply scanGroupAliases_spec.
Qed.

End scan.


End group_aliases.

(** * Runs on the doubles *)

(** ** Unseal *)

(** With two shares needed, round 0 is answered "sealed, progress 1" and
    round 1 "not sealed": [Unseal] returns nil after the second share. *)
Lemma Unseal_rounds_on_doubles :
  progressing 0 1 initialized_world first_share_sent
  ∧ Unseal 2 initialized_world = (second_share_sent, Ret tt)
  ∧ fv_sealed (server (cl (self second_share_sent))) = false.
Proof.
  assert (progressing 0 1 initialized_world first_share_sent) as Hrounds.
  { eapply progressing_round with (key := "share-0")
      (resp := {| api.Sealed := true; api.Progress := 1 |}).
    - vm_compute. reflexivity.
    - vm_compute. reflexivity.
    - reflexivity.
    - discriminate.
    - apply progressing_done. }
  split; [exact Hrounds |]. split; [| vm_compute; reflexivity].
  destruct (Unseal_rounds 1 2 initialized_world first_share_sent Hrounds (le_n 2))
    as (_ & _ & Hround).
  destruct (Hround (fst (keyStore_Get (unsealKeyForID 1) first_share_sent))
              second_share_sent "share-1") as [_ Hanswer].
  { vm_compute. reflexivity. }
  destruct (Hanswer {| api.Sealed := false; api.Progress := 0 |}) as [Hunsealed _].
  { vm_compute. reflexivity. }
  apply Hunsealed. reflexivity.
Defined.

(** ** Init twice *)

Lemma Init_twice_on_doubles :
  snd (Init 0 initialized_world) = Ret tt
  ∧ trace (fst (Init 0 initialized_world))
    = trace initialized_world ++ [EvRequest "" api.SysInitStatus]
  ∧ keyStore (self (fst (Init 0 initialized_world))) = keyStore (self initialized_world).
Proof.
  destruct (Init_already_initialized 0 initialized_world
              (server (cl (self initialized_world))))
    as (Hret & Htrace & Hstore & _).
  { vm_compute. reflexivity. }
  split; [exact Hret |]. split; [exact Htrace | exact Hstore].
Defined.

(** ** Init: the checks before the remote init *)

Section init_checks.

Context {K V X : Type} `{!KVService K} `{!AdminAPI V}.

(** [keyStoreNotFound] never answers "not found" together with an error:
    the test [notFound && err != nil] of [Init] cannot succeed. *)
Lemma keyStoreNotFound_never_both key (w : World (K:=K) (V:=V) (X:=X)) w' err :
  keyStoreNotFound key w ≠ (w', Ret (true, Some err)).
Proof.
  rewrite (keyStoreNotFound_eq key w _ _ (keyStore_Get_eq key w)).
  destruct (snd (Get key (keyStore (self w)))) as [v|e]; [congruence |].
  destruct (isNotFoundError e); congruence.
Qed.

(** A status check that fails ends the wait at once. *)
Lemma waitUnsealed_ends_on_error fuel (w w1 : World (K:=K) (V:=V) (X:=X)) err :
  cl_request api.SysSealStatus w = (w1, Ret (Err err)) →
  waitUnsealed (S fuel) w = (w1, Ret tt).
Proof.
  intros Hreq. simpl. unfold Sealed.
  unfold mbind at 1, M_bind at 1. unfold mbind at 1, M_bind at 1.
  rewrite Hreq. reflexivity.
Qed.

(** What [Init] does do before the remote init: a value under the
    root-token key makes it fail with the already-exists error, and the
    init request is not sent. *)
Lemma Init_conflict_on_existing_root fuel (w w0 w1 : World (K:=K) (V:=V) (X:=X)) v :
  cl_request api.SysInitStatus w = (w0, Ret (Ok false)) →
  PreFlightChecks (config (self w)) = false →
  keyStore_Get rootTokenKey w0 = (w1, Ret (Ok v)) →
  Init fuel w = (w1, Fail (already_exists_error rootTokenKey))
  ∧ trace w1 = trace w ++ [EvRequest (token (cl (self w))) api.SysInitStatus;
                           EvGet rootTokenKey (Ok v)].
Proof.
  intros Hstatus Hpre Hget. split.
  - unfold Init. rewrite (bind_ret _ _ _ _ _ Hstatus).
    assert (config (self w0) = config (self w)) as Hcfg.
    { rewrite cl_request_eq in Hstatus. by injection Hstatus as <- _. }
    unfold mbind at 1, M_bind at 1, v_config at 1. rewrite Hcfg, Hpre.
    unfold mbind at 1, M_bind at 1. unfold mret at 1, M_ret at 1.
    simpl forEach. unfold mbind at 1, M_bind at 1. unfold mbind at 1, M_bind at 1.
    unfold mbind at 1, M_bind at 1.
    rewrite (keyStoreNotFound_eq _ _ _ _ Hget). reflexivity.
  - rewrite cl_request_eq in Hstatus. injection Hstatus as <- _.
    rewrite keyStore_Get_eq in Hget. injection Hget as <- Hr. simpl in *.
    rewrite Hr. by rewrite <- app_assoc.
Qed.

End init_checks.

(** C1, on the doubles. The store cannot tell whether the root-token key
    exists: its [Get] fails with an error that is not not-found. [Init]
    goes on all the same: it checks the other keys, sends the init request
    and stores the shares, and returns nil. *)
Theorem Init_proceeds_past_unreadable_key :
  let w := double_world root_unreadable fresh_server (make_config 1 1 "" false false) in
  Get rootTokenKey root_unreadable = (root_unreadable, Err unavailable)
  ∧ isNotFoundError unavailable = false
  ∧ snd (Init 0 w) = Ret tt
  ∧ trace (fst (Init 0 w))
    = [EvRequest "" api.SysInitStatus;
       EvGet "vault-root" (Err unavailable);
       EvGet "vault-unseal-0" (Err (ErrStore true "key 'vault-unseal-0' is not present"));
       EvGet "vault-unseal-1" (Err (ErrStore true "key 'vault-unseal-1' is not present"));
       EvRequest "" (api.SysInit {| api.SecretShares := 1; api.SecretThreshold := 1;
                                    api.RecoveryShares := 1; api.RecoveryThreshold := 1 |});
       EvGet "vault-unseal-0" (Err (ErrStore true "key 'vault-unseal-0' is not present"));
       EvSet "vault-unseal-0" "share-0" None;
       EvGet "vault-recovery-0" (Err (ErrStore true "key 'vault-recovery-0' is not present"));
       EvSet "vault-recovery-0" "rshare-0" None]
  ∧ fv_initialized (server (cl (self (fst (Init 0 w))))) = true.
Proof. repeat split; vm_compute; reflexivity. Qed.

(** C3, on the doubles. With the fixed root token [fixed] configured and
    [StoreRootToken] on, [Init] creates [fixed] and revokes the generated
    token, and then stores the generated token, which the server no longer
    knows, under the root-token key. *)
Theorem Init_stores_the_revoked_token :
  let w := double_world empty_store (fv_with_polls 0 (Some 0%nat) fresh_server)
             (make_config 1 1 "fixed" true false) in
  snd (Init 1 w) = Ret tt
  ∧ fv_tokens (server (cl (self (fst (Init 1 w))))) = ["fixed"]
  ∧ kv_data (keyStore (self (fst (Init 1 w)))) !! rootTokenKey = Some "s.generated"
  ∧ last (trace (fst (Init 1 w))) = Some (EvSet "vault-root" "s.generated" None).
Proof. repeat split; vm_compute; reflexivity. Qed.

(** C4, on the doubles. The server is sealed and its first status check
    fails. [Init] does not go on polling: with no sleep and no second
    check it leaves the wait, sets the temporary token and asks for the
    fixed token, which the sealed server refuses; [Init] fails. *)
Theorem Init_wait_ends_on_status_error :
  let w := double_world empty_store (fv_with_polls 1 None fresh_server)
             (make_config 1 1 "fixed" true false) in
  snd (Init 1 w)
  = Fail (ErrWrap sealed_error
            "unable to setup requested root token, (temporary root token: 's.generated')")
  ∧ drop 9 (trace (fst (Init 1 w)))
    = [EvRequest "" api.SysSealStatus;
       EvSetToken "s.generated";
       EvRequest "s.generated"
         (api.TokenCreateOrphan {| api.ID := "fixed"; api.Policies := ["root"];
                                   api.DisplayName := "root-token"; api.NoParent := true |})]
  ∧ fv_sealed (server (cl (self (fst (Init 1 w))))) = true.
Proof. repeat split; vm_compute; reflexivity. Qed.

(** C7, as the claim has it, fails for the probe: the store holds [old]
    under the probe's key, the [Get] of the probe finds it, and the probe
    calls [Set] on the key; [Init] goes on with no conflict error and the
    store holds the probe's value in place of [old]. *)
Lemma probe_overwrites_existing_key :
  let w := double_world probed_before fresh_server two_shares in
  kv_data (keyStore (self w)) !! testKey = Some "old"
  ∧ take 3 (trace (fst (Init 0 w)))
    = [EvRequest "" api.SysInitStatus; EvGet testKey (Ok "old"); EvSet testKey testKey None]
  ∧ kv_data (keyStore (self (fst (Init 0 w)))) !! testKey = Some testKey
  ∧ snd (Init 0 w) = Ret tt.
Proof. repeat split; vm_compute; reflexivity. Qed.

(** ** Configure *)

Lemma list_auth_mounts_scoped : scoped list_auth_mounts.
Proof.
  intros tok. unfold list_auth_mounts.
  emits_rule emits_bind; [apply (scoped_request tok api.SysListAuth) | intros _].
  emits_rule emits_ret.
Qed.

Lemma nothing_scoped : scoped (mret tt : M (K := MemKV) (V := FakeVault) (X := unit) unit).
Proof. intros tok. emits_rule emits_ret. Qed.

(** Three runs of [Configure]: the root token is not in the store; the
    document is applied; the document has a group of a type that is not
    supported. The last two end with an empty token on the client. *)
Lemma Configure_on_doubles :
  let no_root := double_world empty_store (running_server []) two_shares in
  let w := double_world root_stored (running_server []) two_shares in
  double_Configure aliases_document no_root
  = (fst (keyStore_Get rootTokenKey no_root),
     Fail (ErrWrap (ErrStore true "key 'vault-root' is not present")
             "unable to get key 'vault-root'"))
  ∧ (snd (double_Configure aliases_document w) = Ret tt
     ∧ token (cl (self (fst (double_Configure aliases_document w)))) = "")
  ∧ (snd (double_Configure internal_group_document w)
     = Fail (ErrWrap (ErrNew "only external groups are supported for now")
               "error writing groups configurations for vault")
     ∧ token (cl (self (fst (double_Configure internal_group_document w)))) = "").
Proof.
  intros no_root w.
  pose proof (λ config w w1,
    Configure_scopes_the_root_token (λ _, "") list_auth_mounts (mret tt) (mret tt)
      sdk_ParsePluginType decode_audit (Some tt) None (λ _ _, Err (ErrNew "no such secret"))
      list_auth_mounts_scoped nothing_scoped nothing_scoped config w w1) as Hscoped.
  split; [| split].
  - destruct (Hscoped aliases_document no_root (fst (keyStore_Get rootTokenKey no_root)))
      as [Hfail _].
    destruct (Hfail (ErrStore true "key 'vault-root' is not present")) as [Hrun _].
    { vm_compute. reflexivity. }
    exact Hrun.
  - assert (snd (double_Configure aliases_document w) = Ret tt) as Hout
      by (vm_compute; reflexivity).
    split; [exact Hout |].
    destruct (Hscoped aliases_document w (fst (keyStore_Get rootTokenKey w))) as [_ Hok].
    destruct (Hok "s.root") as (evs & _ & Hfinal).
    { vm_compute. reflexivity. }
    cbv zeta in Hfinal. unfold double_Configure in *. rewrite Hout in Hfinal.
    exact (proj1 Hfinal).
  - assert (snd (double_Configure internal_group_document w)
            = Fail (ErrWrap (ErrNew "only external groups are supported for now")
                      "error writing groups configurations for vault")) as Hout
      by (vm_compute; reflexivity).
    split; [exact Hout |].
    destruct (Hscoped internal_group_document w (fst (keyStore_Get rootTokenKey w)))
      as [_ Hok].
    destruct (Hok "s.root") as (evs & _ & Hfinal).
    { vm_compute. reflexivity. }
    cbv zeta in Hfinal. unfold double_Configure in *. rewrite Hout in Hfinal.
    exact (proj1 Hfinal).
Defined.

(** ** Group aliases *)


(** The same name on two mounts: applied to a server with no alias, the
    document with [svc] on both mounts leaves two aliases with ids of
    their own; applied once more, it tunes the two and adds none. *)
Example same_name_on_two_mounts :
  let w := double_world root_stored (running_server []) two_shares in
  let once := fst (double_Configure aliases_document w) in
  let twice := fst (double_Configure aliases_document once) in
  fv_aliases (server (cl (self once))) = [svc_on_k8s; svc_on_ldap]
  ∧ snd (double_Configure aliases_document once) = Ret tt
  ∧ fv_aliases (server (cl (self twice))) = [svc_on_k8s; svc_on_ldap].
Proof. repeat split; vm_compute; reflexivity. Qed.

(** ** Plugins *)

(** The record with the empty command is registered. *)
Lemma empty_command_on_doubles :
  let w := authenticated_world [] in
  getOrError plugin_without_command "command" = Ok ""
  ∧ snd (configurePlugins sdk_ParsePluginType plugins_document w) = Ret tt
  ∧ trace (fst (configurePlugins sdk_ParsePluginType plugins_document w))
    = [EvRequest "s.root" api.SysListPlugins;
       EvRequest "s.root"
         (api.SysRegisterPlugin {| api.Name := "my-plugin"; api.Type_ := api.PluginTypeSecrets;
                                   api.Command := ""; api.SHA256 := "0a1b2c" |})]
  ∧ fv_plugins (server (cl (self (fst (configurePlugins sdk_ParsePluginType
                                         plugins_document w)))))
    = [{| api.Name := "my-plugin"; api.Type_ := api.PluginTypeSecrets;
          api.Command := ""; api.SHA256 := "0a1b2c" |}].
Proof.
  intros w.
  destruct (getOrError_fires_only_when_unset (K := MemKV) (V := FakeVault) (D := gmap string value)
              (X := unit) sdk_ParsePluginType) as [Hfield Hplugin].
  split.
  { destruct (Hfield plugin_without_command "command") as (_ & _ & Hempty).
    apply Hempty. vm_compute. reflexivity. }
  destruct (Hplugin plugins_document w (fst (cl_request api.SysListPlugins w))
              plugin_without_command [] "my-plugin" "0a1b2c" "secret" api.PluginTypeSecrets)
    as [Hrun Htrace]; try (vm_compute; reflexivity).
  split; [rewrite Hrun; vm_compute; reflexivity |].
  split; [exact Htrace |].
  rewrite Hrun. vm_compute. reflexivity.
Defined.

(** * Further properties of the client *)

(** ** Key names *)

(** X1. The names of the keys never collide: unseal keys of two indices
    differ, recovery keys of two indices differ, and no unseal key, recovery
    key, root-token key and test key are the same key. *)
Theorem key_names_never_collide (i j : Z) :
  (unsealKeyForID i = unsealKeyForID j → i = j)
  ∧ (recoveryKeyForID i = recoveryKeyForID j → i = j)
  ∧ unsealKeyForID i ≠ recoveryKeyForID j
  ∧ unsealKeyForID i ≠ rootTokenKey
  ∧ unsealKeyForID i ≠ testKey
  ∧ recoveryKeyForID i ≠ rootTokenKey
  ∧ recoveryKeyForID i ≠ testKey
  ∧ rootTokenKey ≠ testKey.
Proof.
  unfold unsealKeyForID, recoveryKeyForID, rootTokenKey, testKey.
  repeat split; try discriminate.
  - intros [= H]. simpl in H. by apply (inj (pretty : Z → string)).
  - intros [= H]. simpl in H. by apply (inj (pretty : Z → string)).
Qed.

(** ** Unseal reads *)

#[export] Instance Forall_trace_prop (Q : Event → Prop) : TraceProp (Forall Q).
Proof. split; [constructor | intros a b Ha Hb; by apply Forall_app]. Qed.

Section unseal_reads.

Context {K V X : Type} `{!KVService K} `{!AdminAPI V}.

#[local] Abbreviation World := (World (K:=K) (V:=V) (X:=X)).

Lemma Unseal_from_steps tok fuel i :
  emits (K:=K) (V:=V) (X:=X) (has_token tok) (Forall (is_unseal_step tok)) (Unseal_from fuel i).
Proof.
  revert i. induction fuel as [|fuel IH]; intros i; simpl.
  - emits_rule emits_no_return.
  - emits_rule emits_bind.
    { emits_rule emits_step. intros w Hw. rewrite keyStore_Get_eq. simpl.
      split; [exact Hw |]. eexists. split; [reflexivity |].
      constructor; [by exists i | constructor]. }
    intros [k|err]; [| emits_rule emits_fail].
    emits_rule emits_bind.
    { emits_rule emits_step. intros w Hw. rewrite cl_request_eq. simpl.
      split; [exact Hw |]. eexists. split; [reflexivity |].
      constructor; [exact Hw | constructor]. }
    intros [resp|err]; [| emits_rule emits_fail].
    destruct (negb (api.Sealed resp)); [emits_rule emits_ret |].
    destruct (api.Progress resp =? 0); [emits_rule emits_fail | apply IH].
Qed.

(** X2. However long it runs and however it ends, [Unseal] only fetches
    unseal keys from the key store and sends unseal requests under the
    token the client has: it writes nothing to the key store, sets no
    token and leaves the client's token as it was. *)
Theorem Unseal_only_fetches_and_unseals (fuel : nat) (w : World) :
  let w' := fst (Unseal fuel w) in
  token (cl (self w')) = token (cl (self w))
  ∧ ∃ evs, trace w' = trace w ++ evs
           ∧ Forall (is_unseal_step (token (cl (self w)))) evs.
Proof.
  exact (Unseal_from_steps (token (cl (self w))) fuel 0 w eq_refl).
Qed.

(** X3. [Active] never answers "not active": it returns true when the
    health request answers with status 200, and an error in every other
    case, a failed request and any other status alike. *)
Theorem Active_is_true_or_an_error (w : World) :
  let answer := snd (serve (token (cl (self w))) api.SysHealth (server (cl (self w)))) in
  (answer = Ok StatusOK ∧ snd (Active w) = Ret true)
  ∨ (answer ≠ Ok StatusOK ∧ ∃ err, snd (Active w) = Fail err).
Proof.
  intros answer. subst answer. unfold Active, mbind, M_bind. rewrite cl_request_eq.
  destruct (snd (serve _ api.SysHealth _)) as [code|err]; simpl.
  - destruct (Z.eqb_spec code StatusOK) as [->|Hne].
    + left. split; reflexivity.
    + right. split; [congruence | eauto].
  - right. split; [discriminate | eauto].
Qed.

End unseal_reads.

(** ** RaftJoin *)

Section raft.

Context {K V X : Type} `{!KVService K} `{!AdminAPI V}.

#[local] Abbreviation World := (World (K:=K) (V:=V) (X:=X)).

(** X4. [RaftJoin] joins neither an initialized node nor the first
    replica: with a leader address, a server that reports "initialized"
    makes it return nil after that one status request; with no leader
    address, a pod name ending in [-0] makes it return nil with no call at
    all. *)
Theorem RaftJoin_skips_initialized_and_first_replica
    (Getenv : string → string) (ReadFile : string → result bytes) (w : World) :
  (∀ leaderAPIAddr w0,
     leaderAPIAddr ≠ "" →
     cl_request api.SysInitStatus w = (w0, Ret (Ok true)) →
     RaftJoin Getenv ReadFile leaderAPIAddr w = (w0, Ret tt)
     ∧ trace w0 = trace w ++ [EvRequest (token (cl (self w))) api.SysInitStatus])
  ∧ (strings.HasSuffix (Getenv "POD_NAME") "-0" = true →
     RaftJoin Getenv ReadFile "" w = (w, Ret tt)).
Proof.
  split.
  - intros leaderAPIAddr w0 Hleader Hstatus. split.
    + unfold RaftJoin. rewrite (bool_decide_true (leaderAPIAddr ≠ "")) by exact Hleader.
      unfold mbind at 1, M_bind at 1. unfold mbind at 1, M_bind at 1.
      rewrite Hstatus. reflexivity.
    + by apply cl_request_returns in Hstatus as (_ & ? & _).
  - intros Hpod. unfold RaftJoin.
    rewrite (bool_decide_false ("" ≠ "")) by (intros Hne; by apply Hne).
    unfold mbind, M_bind, mret, M_ret. rewrite Hpod. reflexivity.
Qed.


End raft.


(** ** Mount paths *)

Lemma TrimRight_slash (s : string) :
  strings.TrimRight (s +:+ "/") "/" = strings.TrimRight s "/".
Proof.
  induction s as [|a s IH]; [reflexivity |].
  change (String a s +:+ "/") with (String a (s +:+ "/")).
  simpl. by rewrite IH.
Qed.

Lemma TrimRight_again (s : string) :
  strings.TrimRight (strings.TrimRight s "/") "/" = strings.TrimRight s "/".
Proof.
  induction s as [|a s IH]; [reflexivity |]. simpl.
  destruct (strings.TrimRight s "/") as [|b t] eqn:Ht.
  - destruct (decide (a = "/"%char)) as [->|Hne]; [reflexivity |].
    simpl. by destruct (decide (a = "/"%char)).
  - simpl in *. by rewrite IH.
Qed.

Section mount_paths.

Context {K V X : Type} `{!KVService K} `{!AdminAPI V}.

(** X6. Slashes at the end of an auth mount path do not matter:
    [getVaultAuthMountAccessor] makes the same run, with the same answer
    and the same error, for a path, for the path with a slash added, and
    for the path with its trailing slashes removed. *)
Theorem getVaultAuthMountAccessor_ignores_trailing_slashes (path : string)
    (w : World (K:=K) (V:=V) (X:=X)) :
  getVaultAuthMountAccessor (path +:+ "/") w = getVaultAuthMountAccessor path w
  ∧ getVaultAuthMountAccessor (strings.TrimRight path "/") w
    = getVaultAuthMountAccessor path w.
Proof.
  unfold getVaultAuthMountAccessor. by rewrite TrimRight_slash, TrimRight_again.
Qed.

End mount_paths.

(** ** Errors that prohibit an overwrite *)

Lemma HasPrefix_app (s t : string) : strings.HasPrefix (s +:+ t) s = true.
Proof.
  induction s as [|a s IH]; simpl; [by destruct t |].
  rewrite bool_decide_true by done. exact IH.
Qed.

Lemma strings_Contains_prefix (s t : string) : strings_Contains (s +:+ t) s = true.
Proof.
  destruct s as [|a s]; simpl.
  - destruct t; reflexivity.
  - rewrite bool_decide_true by done. simpl. by rewrite HasPrefix_app.
Qed.

Lemma strings_Contains_refl (s : string) : strings_Contains s s = true.
Proof.
  assert (strings.HasPrefix s s = true) as Hs.
  { induction s as [|a s IH]; simpl; [reflexivity |]. by rewrite bool_decide_true. }
  destruct s; simpl in *; [reflexivity |]. by rewrite Hs.
Qed.

Lemma strings_Contains_app (p s substr : string) :
  strings_Contains s substr = true → strings_Contains (p +:+ s) substr = true.
Proof.
  intros Hs. induction p as [|a p IH]; simpl; [exact Hs |].
  rewrite IH. apply orb_true_r.
Qed.

(** X7. An error that prohibits the overwrite is still seen as one through
    any number of wraps: [errors.Wrap] puts its message in front of the
    cause's, and the phrase is looked for anywhere in the message. *)
Theorem isOverwriteProhibitedError_survives_wrap (err : error) (msg : string) :
  isOverwriteProhibitedError err = true →
  isOverwriteProhibitedError (ErrWrap err msg) = true.
Proof.
  unfold isOverwriteProhibitedError. simpl. intros Herr.
  apply strings_Contains_app. by apply (strings_Contains_app ": ").
Qed.

Lemma isOverwriteProhibitedError_example :
  let err := ErrNew "path is already in use at kv/; delete them before reconfiguring" in
  isOverwriteProhibitedError err = true
  ∧ isOverwriteProhibitedError (ErrWrap err "error configuring secret engines for vault") = true
  ∧ isOverwriteProhibitedError (ErrNew "permission denied") = false.
Proof.
  intros err. split; [reflexivity |]. split; [| reflexivity].
  apply isOverwriteProhibitedError_survives_wrap. reflexivity.
Defined.

(** ** The PEM bundle of a pki startup secret *)

Lemma strings_Contains_Join (l : list string) (sep v : string) :
  v ∈ l → strings_Contains (strings.Join l sep) v = true.
Proof.
  induction l as [|s l IH]; [by intros ?%elem_of_nil |].
  intros [->|Hin]%elem_of_cons.
  - destruct l as [|s' l]; simpl strings.Join.
    + apply strings_Contains_refl.
    + apply strings_Contains_prefix.
  - destruct l as [|s' l]; [by apply elem_of_nil in Hin |].
    change (strings.Join (s :: s' :: l) sep) with (s +:+ sep +:+ strings.Join (s' :: l) sep).
    apply strings_Contains_app, strings_Contains_app. by apply IH.
Qed.


(** ** Init: existing keys *)

Section init_existing.

Context {K V X : Type} `{!KVService K} `{!AdminAPI V}.

#[local] Abbreviation World := (World (K:=K) (V:=V) (X:=X)).

Lemma set_keyStore_same (w : World) : set_keyStore (keyStore (self w)) w = w.
Proof. by destruct w as [[k c cfg rc] x tr]. Qed.

(** A read that leaves the store as it is only adds its event. *)
Lemma keyStore_Get_stable key (w : World) r :
  Get key (keyStore (self w)) = (keyStore (self w), r) →
  keyStore_Get key w = (add_events [EvGet key r] w, Ret r).
Proof.
  intros Hget. rewrite keyStore_Get_eq, Hget. simpl. by rewrite set_keyStore_same.
Qed.

(** The loop of [Init] over the keys, on a store whose reads answer
    [reads]: it stops at the first key that has a value. *)
Lemma Init_checks_stop_at_a_value (reads : string → result bytes) (keys : list string)
    (w : World) :
  (∀ k, Get k (keyStore (self w)) = (keyStore (self w), reads k)) →
  Exists (λ k, ∃ v, reads k = Ok v) keys →
  ∃ key v evs,
    key ∈ keys ∧ reads key = Ok v
    ∧ forEach (λ key,
        '(notFound, err) ← keyStoreNotFound key;
        match notFound, err with
        | true, Some e =>
            fail (ErrWrap e ("error before init: checking key '" +:+ key +:+ "' failed"))
        | false, None => fail (already_exists_error key)
        | _, _ => mret tt
        end) keys w = (add_events evs w, Fail (already_exists_error key))
    ∧ Forall (λ e, ∃ k r, e = EvGet k r) evs.
Proof.
  intros Hreads. revert w Hreads.
  induction keys as [|k keys IH]; intros w Hreads Hex; [by apply Exists_nil in Hex |].
  pose proof (keyStoreNotFound_eq k w _ _ (keyStore_Get_stable k w _ (Hreads k))) as Hnf.
  simpl forEach. unfold mbind at 1, M_bind at 1. unfold mbind at 1, M_bind at 1.
  rewrite Hnf.
  destruct (reads k) as [v|err] eqn:Hk.
  - exists k, v, [EvGet k (Ok v)]. split; [apply elem_of_cons; by left |].
    split; [exact Hk |]. split; [reflexivity |].
    constructor; [eauto | constructor].
  - apply Exists_cons in Hex as [[v Hv]|Hex]; [congruence |].
    destruct (IH (add_events [EvGet k (Err err)] w) Hreads Hex)
      as (key & v & evs & Hin & Hv & Hrun & Hevs).
    exists key, v, (EvGet k (Err err) :: evs).
    split; [apply elem_of_cons; by right |]. split; [exact Hv |].
    split; [| constructor; [eauto | exact Hevs]].
    destruct (isNotFoundError err); cbv beta iota; unfold mret at 1, M_ret at 1;
      rewrite Hrun, add_events_app; reflexivity.
Qed.


End init_existing.


(** ** Init: what is persisted *)

Lemma unsealKeyForID_inj : Inj (=) (=) unsealKeyForID.
Proof.
  intros i j. unfold unsealKeyForID. intros [= H]. simpl in H.
  by apply (inj (pretty : Z → string)).
Qed.

Lemma recoveryKeyForID_inj : Inj (=) (=) recoveryKeyForID.
Proof.
  intros i j. unfold recoveryKeyForID. intros [= H]. simpl in H.
  by apply (inj (pretty : Z → string)).
Qed.

Lemma elem_of_indexed {A} (l : list A) (i : Z) (x : A) :
  (i, x) ∈ zip (seqZ 0 (Z.of_nat (length l))) l ↔ 0 ≤ i ∧ l !! Z.to_nat i = Some x.
Proof.
  rewrite list_elem_of_lookup. split.
  - intros [n [Hi Hx]%lookup_zip_Some]. apply lookup_seqZ in Hi as [-> _].
    split; [lia |]. by rewrite Z.add_0_l, Nat2Z.id.
  - intros [Hi Hx]. exists (Z.to_nat i). apply lookup_zip_Some. split; [| exact Hx].
    apply lookup_seqZ. apply lookup_lt_Some in Hx. lia.
Qed.

Lemma indexed_NoDup {A} (l : list A) : NoDup (zip (seqZ 0 (Z.of_nat (length l))) l).*1.
Proof. rewrite fst_zip; [apply NoDup_seqZ |]. rewrite length_seqZ. lia. Qed.

Section init_persists.

Context {K V X : Type} `{!KVService K} `{!AdminAPI V}.
Variable content : K → gmap string bytes.
Hypothesis Hreads : store_reads content.
Hypothesis Hwrites : store_writes content.

#[local] Abbreviation World := (World (K:=K) (V:=V) (X:=X)).
#[local] Abbreviation held w := (content (keyStore (self w))).

(** [w'] differs from [w] in the key store and the trace at most. *)
#[local] Abbreviation same_client w w' :=
  (cl (self w') = cl (self w) ∧ config (self w') = config (self w)).

Lemma Get_lawful key (w : World) :
  keyStore_Get key w
  = (add_events [EvGet key (snd (Get key (keyStore (self w))))] w,
     Ret (snd (Get key (keyStore (self w))))).
Proof.
  apply keyStore_Get_stable. destruct (Hreads key (keyStore (self w))) as [Hfst _].
  destruct (Get key (keyStore (self w))). simpl in *. by subst.
Qed.

Lemma Get_lawful_absent key (w : World) :
  held w !! key = None →
  ∃ e, keyStore_Get key w = (add_events [EvGet key (Err e)] w, Ret (Err e))
       ∧ isNotFoundError e = true.
Proof.
  intros Hnone. rewrite Get_lawful.
  destruct (Hreads key (keyStore (self w))) as [_ Hr]. rewrite Hnone in Hr.
  destruct (snd (Get key (keyStore (self w)))) as [v|e]; [done | eauto].
Qed.

Lemma keyStoreSet_lawful key val (w : World) :
  held w !! key = None →
  ∃ w', keyStoreSet key val w = (w', Ret tt)
        ∧ held w' = <[key := val]> (held w)
        ∧ same_client w w'.
Proof.
  intros Hnone. destruct (Get_lawful_absent key w Hnone) as (e & Hget & He).
  rewrite (keyStoreSet_absent key val w _ e Hget He).
  unfold mbind, M_bind. rewrite keyStore_Set_eq.
  destruct (Hwrites key val (keyStore (self (add_events [EvGet key (Err e)] w))))
    as [Hok Hcontent].
  rewrite Hok. simpl. eexists. split; [reflexivity |]. simpl in *. done.
Qed.

(** A loop that stores the values of a list under the names of their
    indices, from a store that holds none of these names. *)
Lemma store_loop_lawful (name msg : Z → string) (pairs : list (Z * bytes)) (w : World) :
  Inj (=) (=) name →
  NoDup pairs.*1 →
  (∀ i, i ∈ pairs.*1 → held w !! name i = None) →
  ∃ w', forEach (λ ix, wrapping (msg ix.1) (keyStoreSet (name ix.1) ix.2)) pairs w = (w', Ret tt)
        ∧ (∀ i v, (i, v) ∈ pairs → held w' !! name i = Some v)
        ∧ (∀ key, (∀ i, i ∈ pairs.*1 → key ≠ name i) → held w' !! key = held w !! key)
        ∧ same_client w w'.
Proof.
  intros Hinj. revert w. induction pairs as [|[i v] pairs IH]; intros w Hnodup Habsent.
  - exists w. split; [reflexivity |]. split; [by intros ?? ?%elem_of_nil | done].
  - apply NoDup_cons in Hnodup as [Hi Hnodup]. simpl in Hi.
    destruct (keyStoreSet_lawful (name i) v w) as (w1 & Hset & Hheld1 & Hcl1 & Hcfg1).
    { apply Habsent. simpl. apply elem_of_cons. by left. }
    destruct (IH w1 Hnodup) as (w' & Hrun & Hstored & Hother & Hcl & Hcfg).
    { intros j Hj. rewrite Hheld1, lookup_insert_ne.
      - apply Habsent. simpl. apply elem_of_cons. by right.
      - intros Heq%Hinj. by subst. }
    exists w'. split; [| split; [| split]].
    + simpl forEach. unfold mbind at 1, M_bind at 1. unfold wrapping at 1. simpl.
      rewrite Hset. exact Hrun.
    + intros j x [[= -> ->]|Hin]%elem_of_cons; [| by apply Hstored].
      rewrite Hother, Hheld1; [by rewrite lookup_insert_eq |].
      intros j Hj Heq%Hinj. by subst.
    + intros key Hkey. rewrite Hother, Hheld1.
      * rewrite lookup_insert_ne; [done |]. intros <-. apply (Hkey i); [| done].
        simpl. apply elem_of_cons. by left.
      * intros j Hj. apply Hkey. simpl. apply elem_of_cons. by right.
    + split; congruence.
Qed.

Lemma Test_lawful key (w : World) :
  ∃ w', Test key w = (w', Ret tt)
        ∧ held w' = <[key := key]> (held w)
        ∧ same_client w w'.
Proof.
  pose proof (Get_lawful key w) as Hget.
  assert (match snd (Get key (keyStore (self w))) with
          | Ok _ => true
          | Err err => isNotFoundError err
          end = true) as Hr.
  { destruct (Hreads key (keyStore (self w))) as [_ Hr].
    destruct (held w !! key), (snd (Get key (keyStore (self w)))); done. }
  rewrite (Test_writes key w _ _ Hget Hr).
  unfold mbind, M_bind. rewrite keyStore_Set_eq.
  destruct (Hwrites key key
              (keyStore (self (add_events [EvGet key (snd (Get key (keyStore (self w))))] w))))
    as [Hok Hcontent].
  rewrite Hok. simpl. eexists. split; [reflexivity |]. simpl in *. done.
Qed.

(** The loop of [Init] over the keys passes when none has a value. *)
Lemma Init_checks_pass (keys : list string) (w : World) :
  (∀ key, key ∈ keys → held w !! key = None) →
  ∃ evs,
    forEach (λ key,
      '(notFound, err) ← keyStoreNotFound key;
      match notFound, err with
      | true, Some e =>
          fail (ErrWrap e ("error before init: checking key '" +:+ key +:+ "' failed"))
      | false, None => fail (already_exists_error key)
      | _, _ => mret tt
      end) keys w = (add_events evs w, Ret tt).
Proof.
  revert w. induction keys as [|k keys IH]; intros w Habsent.
  - exists []. by rewrite add_events_nil.
  - destruct (Get_lawful_absent k w) as (e & Hget & He).
    { apply Habsent, elem_of_cons. by left. }
    destruct (IH (add_events [EvGet k (Err e)] w)) as [evs Hrun].
    { intros key Hkey. apply Habsent, elem_of_cons. by right. }
    exists (EvGet k (Err e) :: evs).
    simpl forEach. unfold mbind at 1, M_bind at 1. unfold mbind at 1, M_bind at 1.
    rewrite (keyStoreNotFound_eq k w _ _ Hget), He. cbv beta iota.
    unfold mret at 1, M_ret at 1. rewrite Hrun, add_events_app. reflexivity.
Qed.

(** [Init] with no fixed root token on a store that behaves as a map. *)
Lemma Init_on_a_map (fuel : nat) (w : World) (s0 s1 : V)
    (resp : api.InitResponse) :
  InitRootToken (config (self w)) = "" →
  no_client_keys (held w) →
  serve (token (cl (self w))) api.SysInitStatus (server (cl (self w))) = (s0, Ok false) →
  serve (token (cl (self w))) (init_request (config (self w))) s0 = (s1, Ok resp) →
  ∃ w', Init fuel w = (w', Ret tt)
        ∧ (∀ i key, api.Keys resp !! i = Some key →
                    held w' !! unsealKeyForID (Z.of_nat i) = Some key)
        ∧ (∀ i key, api.RecoveryKeys resp !! i = Some key →
                    held w' !! recoveryKeyForID (Z.of_nat i) = Some key)
        ∧ held w' !! rootTokenKey
          = (if StoreRootToken (config (self w)) then Some (api.RootToken resp) else None)
        ∧ server (cl (self w')) = s1
        ∧ token (cl (self w')) = token (cl (self w)).
Proof.
  intros Hfixed (Hunseal & Hrecovery & Hroot) Hstatus Hinit.
  (* the status request *)
  pose proof (cl_request_eq api.SysInitStatus w) as Hreq.
  rewrite Hstatus in Hreq. simpl in Hreq.
  set (w0 := add_event (EvRequest (token (cl (self w))) api.SysInitStatus) (set_server s0 w))
    in Hreq.
  (* the pre-flight check *)
  assert (∃ w1,
    (if PreFlightChecks (config (self w))
     then wrapping "error testing keystore before init" (Test testKey)
     else mret tt) w0 = (w1, Ret tt)
    ∧ (∀ key, key ≠ testKey → held w1 !! key = held w !! key)
    ∧ cl (self w1) = cl (self w0) ∧ config (self w1) = config (self w))
    as (w1 & Hpre & Hheld1 & Hcl1 & Hcfg1).
  { destruct (PreFlightChecks (config (self w))).
    - destruct (Test_lawful testKey w0) as (w1 & HT & Hh & Hc & Hcf).
      exists w1. unfold wrapping. rewrite HT. split; [done |]. split; [| done].
      intros key Hne. rewrite Hh. by rewrite lookup_insert_ne.
    - exists w0. done. }
  assert (∀ i, held w1 !! unsealKeyForID i = None) as Hunseal1.
  { intros i. by rewrite Hheld1. }
  assert (∀ i, held w1 !! recoveryKeyForID i = None) as Hrecovery1.
  { intros i. by rewrite Hheld1. }
  assert (held w1 !! rootTokenKey = None) as Hroot1.
  { by rewrite Hheld1. }
  (* the checks *)
  destruct (Init_checks_pass (init_keys (config (self w))) w1) as [evs Hchecks].
  { intros key [->%list_elem_of_singleton | (i & -> & _)%list_elem_of_fmap]%elem_of_app; auto. }
  (* the init request *)
  assert (cl_request (init_request (config (self w))) (add_events evs w1)
          = (add_event (EvRequest (token (cl (self w))) (init_request (config (self w))))
               (set_server s1 (add_events evs w1)), Ret (Ok resp))) as Hsent.
  { rewrite cl_request_eq. simpl. rewrite Hcl1. simpl. rewrite Hinit. reflexivity. }
  set (w2 := add_event (EvRequest (token (cl (self w))) (init_request (config (self w))))
               (set_server s1 (add_events evs w1))) in Hsent.
  (* the unseal shares *)
  destruct (store_loop_lawful unsealKeyForID
              (λ i, "error storing unseal key '" +:+ unsealKeyForID i +:+ "'")
              (zip (seqZ 0 (Z.of_nat (length (api.Keys resp)))) (api.Keys resp)) w2
              unsealKeyForID_inj (indexed_NoDup _))
    as (w3 & Hstore3 & Hheld3 & Hother3 & Hcl3 & Hcfg3).
  { intros i _. apply Hunseal1. }
  (* the recovery shares *)
  destruct (store_loop_lawful recoveryKeyForID
              (λ i, "error storing recovery key '" +:+ recoveryKeyForID i +:+ "'")
              (zip (seqZ 0 (Z.of_nat (length (api.RecoveryKeys resp)))) (api.RecoveryKeys resp)) w3
              recoveryKeyForID_inj (indexed_NoDup _))
    as (w4 & Hstore4 & Hheld4 & Hother4 & Hcl4 & Hcfg4).
  { intros i _. rewrite Hother3; [apply Hrecovery1 |]. intros j _. done. }
  assert (held w4 !! rootTokenKey = None) as Hroot4.
  { rewrite Hother4, Hother3; [exact Hroot1 | |]; intros j _; done. }
  assert (∀ i key, api.Keys resp !! i = Some key →
                   held w4 !! unsealKeyForID (Z.of_nat i) = Some key) as Hkeys4.
  { intros i key Hi. rewrite Hother4; [| intros j _; done].
    apply Hheld3, elem_of_indexed. split; [lia |]. by rewrite Nat2Z.id. }
  assert (∀ i key, api.RecoveryKeys resp !! i = Some key →
                   held w4 !! recoveryKeyForID (Z.of_nat i) = Some key) as Hrkeys4.
  { intros i key Hi. apply Hheld4, elem_of_indexed. split; [lia |]. by rewrite Nat2Z.id. }
  (* the root token *)
  assert (∃ w5,
    (if StoreRootToken (config (self w))
     then wrapping ("error storing root token '" +:+ api.RootToken resp +:+ "' in key'"
                    +:+ rootTokenKey +:+ "'")
            (keyStoreSet rootTokenKey (api.RootToken resp))
     else mret tt) w4 = (w5, Ret tt)
    ∧ (∀ key, key ≠ rootTokenKey → held w5 !! key = held w4 !! key)
    ∧ held w5 !! rootTokenKey
      = (if StoreRootToken (config (self w)) then Some (api.RootToken resp) else None)
    ∧ cl (self w5) = cl (self w4))
    as (w5 & Hstore5 & Hother5 & Hroot5 & Hcl5).
  { destruct (StoreRootToken (config (self w))).
    - destruct (keyStoreSet_lawful rootTokenKey (api.RootToken resp) w4 Hroot4)
        as (w5 & Hset & Hh & Hc & _).
      exists w5. unfold wrapping. rewrite Hset. split; [done |].
      rewrite Hh. split; [| split; [by rewrite lookup_insert_eq | done]].
      intros key Hne. by rewrite lookup_insert_ne.
    - exists w4. done. }
  exists w5. split; [| split; [| split; [| split; [exact Hroot5 |]]]].
  - unfold Init. rewrite (bind_ret _ _ _ _ _ Hreq). cbv iota.
    unfold v_config. unfold mbind at 1, M_bind at 1.
    change (config (self w0)) with (config (self w)).
    unfold mbind at 1, M_bind at 1. rewrite Hpre.
    unfold mbind at 1, M_bind at 1. fold (init_keys (config (self w))). rewrite Hchecks.
    fold (init_request (config (self w))).
    rewrite (bind_ret _ _ _ _ _ Hsent). cbv iota.
    unfold mbind at 1, M_bind at 1. unfold forRange at 1.
    match goal with
    | |- context [forEach ?f ?l w2] =>
        replace (forEach f l w2) with (w3, Ret tt : outcome unit) by (symmetry; exact Hstore3)
    end.
    unfold mbind at 1, M_bind at 1. unfold forRange at 1.
    match goal with
    | |- context [forEach ?f ?l w3] =>
        replace (forEach f l w3) with (w4, Ret tt : outcome unit) by (symmetry; exact Hstore4)
    end.
    rewrite (bool_decide_false (InitRootToken (config (self w)) ≠ ""))
      by (intros Hne; by apply Hne).
    unfold mbind at 1, M_bind at 1. unfold mret at 1, M_ret at 1.
    exact Hstore5.
  - intros i key Hi. rewrite Hother5; [by apply Hkeys4 | done].
  - intros i key Hi. rewrite Hother5; [by apply Hrkeys4 | done].
  - rewrite Hcl5, Hcl4, Hcl3. subst w2. simpl. rewrite Hcl1. done.
Qed.



Lemma Get_lawful_present key val (w : World) :
  held w !! key = Some val →
  keyStore_Get key w = (add_events [EvGet key (Ok val)] w, Ret (Ok val)).
Proof.
  intros Hsome. rewrite Get_lawful.
  destruct (Hreads key (keyStore (self w))) as [_ Hr]. rewrite Hsome in Hr.
  destruct (snd (Get key (keyStore (self w)))) as [v|e]; [by subst | done].
Qed.


End init_persists.

(** The map is a key store that behaves as a map. *)
Lemma map_service_reads : store_reads (λ m : gmap string bytes, m).
Proof. intros key m. split; [reflexivity |]. simpl. by destruct (m !! key). Qed.

Lemma map_service_writes : store_writes (λ m : gmap string bytes, m).
Proof. intros key val m. split; reflexivity. Qed.


(** ** Audit devices *)

Section audit.

Context {K V D X : Type} `{!KVService K} `{!AdminAPI V} `{!Viper D X}.
Variable DecodeAuditOptions : gmap string value → result api.EnableAuditOptions.

#[local] Abbreviation World := (World (K:=K) (V:=V) (X:=X)).

(** X12. Audit devices that are mounted are left alone: when the server
    lists, for every device of the document, a mount at the device's path
    (its [path] without the slashes at its ends, or else its type),
    [configureAuditDevices] returns nil and has sent one list request for
    each device and nothing else. *)
Theorem configureAuditDevices_leaves_mounted_devices (config : D)
    (auditDevices : list (gmap string value))
    (mounts : gmap string api.EnableAuditOptions) (w : World) :
  UnmarshalKey config "audit" = Ok auditDevices →
  serve (token (cl (self w))) api.SysListAudit (server (cl (self w)))
  = (server (cl (self w)), Ok mounts) →
  Forall (λ auditDevice,
            ∃ path, audit_path auditDevice = Some path
                    ∧ is_Some (mounts !! (path +:+ "/"))) auditDevices →
  configureAuditDevices DecodeAuditOptions config w
  = (add_events (replicate (length auditDevices)
                   (EvRequest (token (cl (self w))) api.SysListAudit)) w,
     Ret tt).
Proof.
  intros Hdoc Hlist Hmounted. unfold configureAuditDevices. rewrite Hdoc. clear Hdoc.
  rewrite <- (add_events_nil w) at 1.
  change (replicate (length auditDevices) (EvRequest (token (cl (self w))) api.SysListAudit))
    with ([] ++ replicate (length auditDevices)
                  (EvRequest (token (cl (self w))) api.SysListAudit)).
  generalize (@nil Event) as evs.
  induction Hmounted as [|auditDevice auditDevices (path & Hpath & [mount Hmount]) _ IH];
    intros evs.
  - simpl. by rewrite app_nil_r.
  - simpl forEach. simpl replicate.
    rewrite (cons_middle _ evs), app_assoc, <- IH.
    rewrite (bind_ret _ _ _
               (add_events (evs ++ [EvRequest (token (cl (self w))) api.SysListAudit]) w) tt);
      [reflexivity |].
    unfold audit_path in Hpath.
    destruct (cast.ToStringE (index auditDevice "type")) as [auditDeviceType|?]; [| done].
    rewrite (bind_ret _ _ _ (add_events evs w) auditDeviceType); [| reflexivity].
    rewrite (bind_ret _ _ _ (add_events evs w) path).
    2: { destruct (auditDevice !! "path") as [pathOverwrite|].
         - destruct (cast.ToStringE pathOverwrite) as [p|?]; [| done].
           by injection Hpath as <-.
         - by injection Hpath as <-. }
    rewrite (bind_ret _ _ _ _ _ (cl_request_stable_after _ evs w _ Hlist)).
    cbv beta iota.
    change (api.Response api.SysListAudit) with (gmap string api.EnableAuditOptions).
    by rewrite Hmount.
Qed.

End audit.

(** On the doubles: a device named by its type, and one named by a path
    with slashes at both ends. *)
Lemma configureAuditDevices_on_doubles :
  configureAuditDevices decode_audit audit_document audited_world
  = (add_events (replicate 2 (EvRequest "s.root" api.SysListAudit)) audited_world, Ret tt).
Proof.
  apply (configureAuditDevices_leaves_mounted_devices decode_audit audit_document
           [{[ "type" := VString "file" ]};
            {[ "type" := VString "file"; "path" := VString "/audit/" ]}]
           {[ "file/" := file_audit; "audit/" := file_audit ]} audited_world).
  - reflexivity.
  - reflexivity.
  - repeat constructor.
    + exists "file". split; [reflexivity |]. by eexists.
    + exists "audit". split; [reflexivity |]. by eexists.
Defined.

(** ** Startup secrets *)

Section startup_secrets.

Context {K V D X : Type} `{!KVService K} `{!AdminAPI V} `{!Viper D X}.
Variable Getenv : string → string.
Variable GetConfigOrDie : option unit.
Variable crclient_New : option error.
Variable crclient_Get : string → string → result (gmap string bytes).

#[local] Abbreviation World := (World (K:=K) (V:=V) (X:=X)).
#[local] Abbreviation readStartupSecret :=
  (readStartupSecret (K:=K) (V:=V) (X:=X) Getenv GetConfigOrDie crclient_New crclient_Get).
#[local] Abbreviation configureStartupSecrets :=
  (configureStartupSecrets (K:=K) (V:=V) (X:=X) Getenv GetConfigOrDie crclient_New crclient_Get).

(** Reading a startup secret makes no call on the key store or the
    server. *)
Lemma readStartupSecret_world startupSecret (w : World) :
  fst (readStartupSecret startupSecret w) = w.
Proof.
  unfold readStartupSecret, getOrDefaultSecretData, wrapping, lift, mbind, M_bind,
    mret, M_ret, fail, no_return.
  repeat (case_match; simplify_eq/=; try reflexivity).
Qed.

Lemma bind_fail {A B} (m : M (K:=K) (V:=V) (X:=X) A) (f : A → M B) (w w' : World) e :
  m w = (w', Fail e) → (m ≫= f) w = (w', Fail e).
Proof. intros Hm. unfold mbind, M_bind. rewrite Hm. reflexivity. Qed.

Lemma generateCertPayload_short (m : gmap string value) :
  (size m < 2)%nat →
  generateCertPayload (VMap m) = Err (ErrNew "missing key or certificate in pki data").
Proof.
  intros Hsize. unfold generateCertPayload. simpl cast.ToStringMapStringE. cbv iota.
  rewrite bool_decide_true; [reflexivity |].
  by rewrite length_fmap, length_map_to_list, map_size_fmap.
Qed.


End startup_secrets.


(** ** Identity groups *)

Section groups.

Context {K V D X : Type} `{!KVService K} `{!AdminAPI V} `{!Viper D X}.

#[local] Abbreviation World := (World (K:=K) (V:=V) (X:=X)).

(** X14. Only external groups are written. When the first group of the
    document has another type, [configureIdentityGroups] fails, and the
    one request it has sent is the read of that group by its name: no
    group is written, and the groups after it and the group aliases are
    not looked at. The type is tested after the read: a failed read is
    the error, and otherwise the error says that only external groups are
    supported. *)
Theorem configureIdentityGroups_rejects_other_types (config : D)
    (group : gmap string value) (groups groupAliases : list (gmap string value))
    (w : World) :
  UnmarshalKey config "groups" = Ok (group :: groups) →
  UnmarshalKey config "group-aliases" = Ok groupAliases →
  cast.ToString (index group "type") ≠ "external" →
  let read := api.LogicalRead ("identity/group/name/" +:+ cast.ToString (index group "name")) in
  let answer := snd (serve (token (cl (self w))) read (server (cl (self w)))) in
  trace (fst (configureIdentityGroups config w))
  = trace w ++ [EvRequest (token (cl (self w))) read]
  ∧ snd (configureIdentityGroups config w)
    = Fail match answer with
           | Ok _ => ErrNew "only external groups are supported for now"
           | Err err =>
               ErrWrap (ErrWrap err ("failed to read group "
                                     +:+ cast.ToString (index group "name") +:+ " by name"))
                 "error reading group"
           end.
Proof.
  intros Hgroups Haliases Htype read answer. subst answer.
  unfold configureIdentityGroups. rewrite Hgroups, Haliases. simpl forEach.
  unfold configureGroup, readVaultGroup.
  unfold mbind, M_bind, wrapping. rewrite cl_request_eq. fold read.
  destruct (snd (serve (token (cl (self w))) read (server (cl (self w))))) as [g|err];
    simpl; [| done].
  rewrite bool_decide_true by exact Htype. done.
Qed.

End groups.

(** On the doubles: a document whose one group is internal. *)
Lemma configureIdentityGroups_on_doubles :
  let w := authenticated_world [] in
  trace (fst (configureIdentityGroups (K := MemKV) internal_group_document w))
  = [] ++ [EvRequest "s.root" (api.LogicalRead "identity/group/name/team")]
  ∧ snd (configureIdentityGroups (K := MemKV) internal_group_document w)
    = Fail (ErrNew "only external groups are supported for now").
Proof.
  intros w.
  destruct (configureIdentityGroups_rejects_other_types internal_group_document
              {[ "name" := VString "team"; "type" := VString "internal" ]} [] [] w)
    as [Htrace Herr].
  - vm_compute. reflexivity.
  - vm_compute. reflexivity.
  - vm_compute. discriminate.
  - rewrite Htrace, Herr. split; vm_compute; reflexivity.
Defined.

(** ** Group aliases: the mount and the group *)

Section alias_needs.

Context {K V X : Type} `{!KVService K} `{!AdminAPI V}.

#[local] Abbreviation World := (World (K:=K) (V:=V) (X:=X)).


End alias_needs.



(** ** The calls of the reconcilers *)

(** A request whose event is a [step] under the client's token. *)
Ltac footprint_request :=
  emits_rule emits_step;
  let w := fresh "w" in let Hw := fresh "Hw" in
  intros w Hw; rewrite cl_request_eq; simpl; split; [exact Hw |];
  eexists; split; [reflexivity |];
  constructor; [simpl; first [exact Hw | split; [exact Hw | reflexivity]] | constructor].

Ltac footprint_tac :=
  repeat (simpl; first
    [ lazymatch goal with
      | |- emits _ _ (cl_request _) => footprint_request
      end
    | emits_step_tac ]).

Section footprint.

Context {K V D X : Type} `{!KVService K} `{!AdminAPI V} `{!Viper D X}.
Variable Getenv : string → string.
Variable ParsePluginType : string → result api.PluginType.
Variable DecodeAuditOptions : gmap string value → result api.EnableAuditOptions.
Variable GetConfigOrDie : option unit.
Variable crclient_New : option error.
Variable crclient_Get : string → string → result (gmap string bytes).

#[local] Abbreviation World := (World (K:=K) (V:=V) (X:=X)).
#[local] Abbreviation only P tok :=
  (emits (K:=K) (V:=V) (X:=X) (has_token tok) (Forall P)).

Lemma configurePlugins_steps tok (config : D) :
  only (plugin_step tok) tok (configurePlugins ParsePluginType config).
Proof. unfold configurePlugins, getOrError. footprint_tac. Qed.

Lemma configureAuditDevices_steps tok (config : D) :
  only (audit_step tok) tok (configureAuditDevices DecodeAuditOptions config).
Proof. unfold configureAuditDevices. footprint_tac. Qed.

Lemma configureStartupSecrets_steps tok (config : D) :
  only (secret_step tok) tok
    (configureStartupSecrets Getenv GetConfigOrDie crclient_New crclient_Get config).
Proof.
  unfold configureStartupSecrets, readStartupSecret, getOrDefaultSecretData,
    writeWithWarningCheck.
  footprint_tac.
Qed.

Lemma scanGroupAliases_steps tok name accessor keys :
  only (identity_step tok) tok (scanGroupAliases name accessor keys).
Proof.
  induction keys as [|alias keys IH]; simpl; [emits_rule emits_ret |].
  unfold getVaultGroupAliasName, getVaultGroupAliasMount, readVaultGroupAlias, assert_string.
  emits_rule emits_bind; [footprint_tac | intros aliasName].
  emits_rule emits_bind; [footprint_tac | intros aliasMount].
  destruct (_ && _); [emits_rule emits_ret | exact IH].
Qed.

Lemma configureIdentityGroups_steps tok (config : D) :
  only (identity_step tok) tok (configureIdentityGroups config).
Proof.
  unfold configureIdentityGroups.
  destruct (UnmarshalKey config "groups") as [groups|?]; [| emits_rule emits_fail].
  destruct (UnmarshalKey config "group-aliases") as [groupAliases|?]; [| emits_rule emits_fail].
  emits_rule emits_bind; [| intros _]; emits_rule emits_forEach.
  - intros group. unfold configureGroup, readVaultGroup, writeWithWarningCheck.
    footprint_tac.
  - intros groupAlias.
    unfold configureGroupAlias, getVaultAuthMountAccessor, getVaultGroupID, readVaultGroup,
      assert_string, writeWithWarningCheck, findVaultGroupAliasIDFromNameAndMount.
    repeat (simpl; first
      [ lazymatch goal with
        | |- emits _ _ (cl_request _) => footprint_request
        | |- emits _ _ (scanGroupAliases _ _ _) => apply scanGroupAliases_steps
        end
      | emits_step_tac ]).
Qed.

(** X16. The four reconcilers of the document keep to their own
    endpoints. Whatever the document and the server's answers, each leaves
    the client's token as it is and makes no call on the key store;
    [configurePlugins] only lists and registers plugins,
    [configureAuditDevices] only lists and enables audit devices,
    [configureStartupSecrets] only writes secrets, and
    [configureIdentityGroups] only lists the auth mounts and reads, lists
    and writes paths that begin with [identity/]. *)
Theorem reconcilers_keep_to_their_endpoints (config : D) (w : World) :
  keeps_to plugin_step (configurePlugins ParsePluginType config) w
  ∧ keeps_to audit_step (configureAuditDevices DecodeAuditOptions config) w
  ∧ keeps_to secret_step
      (configureStartupSecrets Getenv GetConfigOrDie crclient_New crclient_Get config) w
  ∧ keeps_to identity_step (configureIdentityGroups config) w.
Proof.
  repeat split.
  - apply (configurePlugins_steps _ config w eq_refl).
  - apply (configurePlugins_steps _ config w eq_refl).
  - apply (configureAuditDevices_steps _ config w eq_refl).
  - apply (configureAuditDevices_steps _ config w eq_refl).
  - apply (configureStartupSecrets_steps _ config w eq_refl).
  - apply (configureStartupSecrets_steps _ config w eq_refl).
  - apply (configureIdentityGroups_steps _ config w eq_refl).
  - apply (configureIdentityGroups_steps _ config w eq_refl).
Qed.

End footprint.

